(** * proq_clim: section segmentation, text normalisation and the
      dispatch/drain loop of [charenko_project/final.py]

    Python [str] values are modelled as [list ascii], one [ascii] per code
    point; the development therefore covers documents over the code points
    0..255 (Latin-1).  The regular expressions of the program are embedded
    as hand-compiled matchers: a matcher looks at the text from the current
    position on and returns the length of the match that Python's
    backtracking engine finds there, if any. *)

From Stdlib Require Import Ascii String List Arith Bool Lia PeanoNat.
From ExtLib Require Import Structures.Monad.
Import ListNotations.
Import MonadNotation.

Local Open Scope char_scope.
Local Open Scope nat_scope.
Local Open Scope list_scope.
Local Open Scope monad_scope.

(** ** Characters and strings *)

Definition str := list ascii.

(** String literals: [txt "abc"] is the text [abc]. *)
Definition txt (lit : string) : str := list_ascii_of_string lit.

Definition code (c : ascii) : nat := nat_of_ascii c.

Definition between (lo hi : nat) (c : ascii) : bool :=
  (lo <=? code c) && (code c <=? hi).

(** [str.isspace] for one code point, which is also the class [\s] of a
    [str] pattern: TAB..CR, FS..US, SPACE, NEL and NBSP below 256. *)
Definition is_space (c : ascii) : bool :=
  between 9 13 c || between 28 32 c || (code c =? 133) || (code c =? 160).

(** The class [\d] below 256. *)
Definition is_digit (c : ascii) : bool := between 48 57 c.

Definition NL : ascii := "010".
Definition SP : ascii := " ".

Definition is_nl (c : ascii) : bool := Ascii.eqb c NL.

(** [str.lower] for one code point below 256: A-Z and the Latin-1 capitals
    (all of 192..222 but the multiplication sign 215) move up by 32. *)
Definition lower_char (c : ascii) : ascii :=
  if between 65 90 c || (between 192 222 c && negb (code c =? 215))
  then ascii_of_nat (code c + 32) else c.

Definition lower (t : str) : str := map lower_char t.

(** A literal of a pattern compiled with [re.IGNORECASE] against a text
    character. *)
Definition ieq (p c : ascii) : bool := Ascii.eqb (lower_char p) (lower_char c).

(** Length of the longest prefix whose characters all satisfy [p]. *)
Fixpoint span (p : ascii -> bool) (t : str) : nat :=
  match t with
  | c :: r => if p c then S (span p r) else 0
  | [] => 0
  end.

Definition non_space (c : ascii) : bool := negb (is_space c).

(** [t[i:j]] for [0 <= i] and [0 <= j]. *)
Definition slice (t : str) (i j : nat) : str := firstn (j - i) (skipn i t).

Fixpoint lstrip (t : str) : str :=
  match t with
  | c :: r => if is_space c then lstrip r else t
  | [] => []
  end.

Fixpoint rstrip (t : str) : str :=
  match t with
  | c :: r =>
      match rstrip r with
      | [] => if is_space c then [] else [c]
      | r' => c :: r'
      end
  | [] => []
  end.

(** [t.strip()] *)
Definition strip (t : str) : str := rstrip (lstrip t).

(** [lit] is a prefix of [t], compared exactly. *)
Fixpoint starts_with (lit t : str) : bool :=
  match lit, t with
  | [], _ => true
  | p :: lit', c :: t' => Ascii.eqb p c && starts_with lit' t'
  | _ :: _, [] => false
  end.

(** [lit] is a prefix of [t] up to case ([re.escape(lit)] under
    [re.IGNORECASE]). *)
Fixpoint istarts_with (lit t : str) : bool :=
  match lit, t with
  | [], _ => true
  | p :: lit', c :: t' => ieq p c && istarts_with lit' t'
  | _ :: _, [] => false
  end.

(** [needle in hay] *)
Fixpoint contains (needle hay : str) : bool :=
  starts_with needle hay ||
  match hay with
  | _ :: hay' => contains needle hay'
  | [] => false
  end.

(** [sep.join(parts)] *)
Fixpoint join (sep : str) (parts : list str) : str :=
  match parts with
  | [] => []
  | [p] => p
  | p :: ps => p ++ sep ++ join sep ps
  end.

(** ** [re.sub]

    [sub_scan m repl skip t] walks over [t]; [skip] counts the characters
    of the current match still to be consumed.  The patterns substituted in
    this program consume at least one character, so a matcher answering
    [Some 0] is treated as no match. *)

Definition matcher := str -> option nat.

Fixpoint sub_scan (m : matcher) (repl : str) (skip : nat) (t : str) : str :=
  match t with
  | [] => []
  | c :: r =>
      match skip with
      | S k => sub_scan m repl k r
      | O =>
          match m t with
          | Some (S k) => repl ++ sub_scan m repl k r
          | _ => c :: sub_scan m repl 0 r
          end
      end
  end.

Definition re_sub (m : matcher) (repl : str) (t : str) : str :=
  sub_scan m repl 0 t.

(** ** TextNormalizer: [clean_text] *)

(** [\S+]: the run of non-whitespace characters, which must not be empty. *)
Definition non_space_run (t : str) : option nat :=
  match span non_space t with
  | O => None
  | n => Some n
  end.

(** [http[s]?://\S+].  After [http] the optional [s] is tried first; when it
    is taken and [://\S+] then fails, the engine retries without it, which
    cannot succeed because the next character is [s] and not [:]. *)
Definition url_pattern : matcher := fun t =>
  if starts_with (txt "https://") t then
    option_map (fun n => 8 + n) (non_space_run (skipn 8 t))
  else if starts_with (txt "http://") t then
    option_map (fun n => 7 + n) (non_space_run (skipn 7 t))
  else None.

(** [\s+] *)
Definition spaces_pattern : matcher := fun t =>
  match span is_space t with
  | O => None
  | n => Some n
  end.

Definition clean_text (text : str) : str :=
  let text := re_sub url_pattern [] text in
  strip (re_sub spaces_pattern [SP] text).

(** ** [re.finditer] and [re.findall]

    A search pattern also sees what precedes the position it is tried at:
    [None] at the start of the searched string, else the character before
    it; that is what [^] needs, with and without [re.MULTILINE].  It answers
    with the length of the match and the text of the group the caller
    reads.  The patterns searched for in this program consume at least one
    character, so none of them matches at the end of the text. *)

Definition pattern (G : Type) := option ascii -> str -> option (nat * G).

Record Match (G : Type) := mkMatch { m_start : nat; m_end : nat; m_group : G }.
Arguments mkMatch {G}.
Arguments m_start {G}.
Arguments m_end {G}.
Arguments m_group {G}.

Fixpoint scan {G} (p : pattern G) (prev : option ascii) (skip pos : nat)
    (t : str) : list (Match G) :=
  match t with
  | [] => []
  | c :: r =>
      match skip with
      | S k => scan p (Some c) k (S pos) r
      | O =>
          match p prev t with
          | Some (S k, g) =>
              mkMatch pos (pos + S k) g :: scan p (Some c) k (S pos) r
          | _ => scan p (Some c) 0 (S pos) r
          end
      end
  end.

Definition finditer {G} (p : pattern G) (t : str) : list (Match G) :=
  scan p None 0 0 t.

Definition findall (p : pattern str) (t : str) : list str :=
  map m_group (finditer p t).

(** ** TitleIndexer: [extract_titles_from_toc] *)

(** [^] under [re.MULTILINE]: start of the text or just after a newline. *)
Definition at_line_start (prev : option ascii) : bool :=
  match prev with
  | None => true
  | Some c => is_nl c
  end.

Definition not_nl (c : ascii) : bool := negb (is_nl c).

(** [^\d+\.\s+] followed by the group [.*], under [re.MULTILINE].  Every
    quantifier is greedy, and what follows [\d+] (a dot) and [\s+] (a group
    that may be empty) accepts the longest run, so the first attempt of the
    engine is the match.  [\s+] is not confined to the line, and [.] stops
    at a newline only. *)
Definition toc_pattern : pattern str := fun prev t =>
  let d := span is_digit t in
  let after_digits := skipn d t in
  let w := span is_space (tl after_digits) in
  let rest := skipn w (tl after_digits) in
  let title := firstn (span not_nl rest) rest in
  if at_line_start prev && (0 <? d) && starts_with ["."] after_digits
     && (0 <? w)
  then Some (d + 1 + w + length title, title)
  else None.

(** The function reads the file at [file_path]; the model takes the text
    that [file.read()] returns. *)
Definition extract_titles_from_toc (content : str) : list str :=
  findall toc_pattern content.

(** ** SectionSegmenter: [extract_text_beneath_duplicates] *)

(** The pattern [(^|\n)], then [re.escape(title)], then [(\n)], under
    [re.IGNORECASE] and without [re.MULTILINE]: [^] holds at the start of
    the searched string only, and is the alternative tried first. *)
Definition title_pattern (title : str) : pattern unit := fun prev t =>
  let line := title ++ [NL] in
  if match prev with None => istarts_with line t | Some _ => false end then
    Some (length line, tt)
  else
    match t with
    | c :: r =>
        if is_nl c && istarts_with line r then Some (1 + length line, tt)
        else None
    | [] => None
    end.

(** The dict that [extract_metadata] fills has at most these three keys. *)
Record Metadata := mkMetadata {
  Author : option str;
  Publication_Title : option str;
  Date : option str
}.

Definition TextData : Type := str * str * Metadata.

(** [next((m.start() for m in title_pattern.finditer(content[start_pos:])),
    None)] *)
Definition next_title_pos (title content : str) (start_pos : nat)
    : option nat :=
  match finditer (title_pattern title) (skipn start_pos content) with
  | m :: _ => Some (m_start m)
  | [] => None
  end.

(** The bounds [i, j] of the slice [content[i:j]] that line 50 takes for the
    occurrence [m].  The test [if next_title_pos] is a truth test: it fails
    for [None] and for the offset 0 alike, and [content[start_pos:]] is then
    taken. *)
Definition body_span (title content : str) (m : Match unit) : nat * nat :=
  let start_pos := m_end m in
  match next_title_pos title content start_pos with
  | Some (S n) => (start_pos, start_pos + S n)
  | Some O | None => (start_pos, length content)
  end.

Definition extracted_text (title content : str) (m : Match unit) : str :=
  let '(i, j) := body_span title content m in
  strip (slice content i j).

Section Segmenter.

(** MetadataExtractor.  None of the properties below depends on which
    fields the three patterns of [extract_metadata] find in the raw text:
    the extractor is a parameter of the segmenter, and what is proved holds
    for every extractor, the one of the program included. *)
Variable extract_metadata : str -> Metadata.

Definition sections_of_title (content title : str) : list TextData :=
  map (fun m =>
         let extracted_text := extracted_text title content m in
         let cleaned_text := clean_text extracted_text in
         let metadata := extract_metadata extracted_text in
         (title, cleaned_text, metadata))
      (finditer (title_pattern title) content).

Definition extract_text_beneath_duplicates (content : str)
    (titles : list str) : list TextData :=
  flat_map (sections_of_title content) titles.

End Segmenter.

(** ** Exceptions and the two effects of the program *)

(** Every exception a job or the sink can raise is an [Exception]; the
    time-out of [as_completed] is one of them, with a class of its own.
    Each carries the text that [str(e)] gives. *)
Inductive exn :=
| Exception (msg : str)
| FuturesTimeoutError (msg : str).

Definition exn_str (e : exn) : str :=
  match e with
  | Exception msg => msg
  | FuturesTimeoutError msg => msg
  end.

Inductive result (A : Type) :=
| Ok (a : A)
| Raise (e : exn).
Arguments Ok {A}.
Arguments Raise {A}.

(** A job runs in a worker thread; what it does to the outside is the
    sequence of chunks it hands to the external summarizer.  [Job A] is a
    computation with that trace that returns an [A] or raises. *)
Definition Job (A : Type) : Type := list str * result A.

#[local] Instance Monad_Job : Monad Job := {|
  ret := fun _ a => ([], Ok a);
  bind := fun _ _ c k =>
    match c with
    | (trace, Ok a) => let '(trace', r) := k a in (trace ++ trace', r)
    | (trace, Raise e) => (trace, Raise e)
    end
|}.

(** The chunks a job handed to the summarizer, and how the job ended. *)
Definition calls {A} (j : Job A) : list str := fst j.
Definition outcome {A} (j : Job A) : result A := snd j.

(** ** SummaryDriver: [summarize_text] *)

Definition max_chunk_size : nat := 2048.

(** [range(0, stop, step)] *)
Definition range_step (stop step : nat) : list nat :=
  map (fun k => k * step) (seq 0 ((stop + step - 1) / step)).

Definition ResultTuple : Type := str * str * str * str * Metadata.

Section Pipeline.

(** The external capability:
    [summarizer(chunk, max_length=200, min_length=50,
    do_sample=False)[0]['summary_text']], which may raise. *)
Variable summarizer : str -> result str.

Definition call_summarizer (chunk : str) : Job str :=
  ([chunk], summarizer chunk).

(** The list comprehension of line 68: one call per chunk, in order,
    stopping at the first call that raises. *)
Fixpoint summaries_of (chunks : list str) : Job (list str) :=
  match chunks with
  | [] => ret []
  | chunk :: chunks' =>
      sm <- call_summarizer chunk ;;
      sms <- summaries_of chunks' ;;
      ret (sm :: sms)
  end.

Definition summarize_text (text : str) : Job str :=
  let text := strip text in
  if length text <? 50 then ret (txt "Text too short to summarize")
  else
    let chunks :=
      map (fun i => slice text i (i + max_chunk_size))
          (range_step (length text) max_chunk_size) in
    summaries <- summaries_of chunks ;;
    ret (join [SP] summaries).

(** ** CorrelationExtractor: [summarize_climate_insurance_correlation] *)

(** [re.split] on a class of single characters. *)
Fixpoint re_split (sep : ascii -> bool) (t : str) : list str :=
  match t with
  | [] => [[]]
  | c :: r =>
      if sep c then [] :: re_split sep r
      else
        match re_split sep r with
        | piece :: pieces => (c :: piece) :: pieces
        | [] => [[c]]
        end
  end.

(** The class [[.!?]]. *)
Definition is_terminator (c : ascii) : bool :=
  Ascii.eqb c "." || Ascii.eqb c "!" || Ascii.eqb c "?".

Definition mentions_both (sentence : str) : bool :=
  contains (txt "climate change") (lower sentence)
  && contains (txt "insurance") (lower sentence).

Definition correlation_sentences (text : str) : list str :=
  map strip (filter mentions_both (re_split is_terminator text)).

Definition no_correlation : str :=
  txt "No correlation between climate change and insurance found.".

Definition summarize_climate_insurance_correlation (text : str) : Job str :=
  match correlation_sentences text with
  | [] => ret no_correlation
  | sentences => summarize_text (join [SP] sentences)
  end.

Definition process_text_item_in_threads (text_data : TextData)
    : Job ResultTuple :=
  let '(title, text, metadata) := text_data in
  summary <- summarize_text text ;;
  correlation <- summarize_climate_insurance_correlation text ;;
  ret (title, text, summary, correlation, metadata).

End Pipeline.

(** ** IncrementalSink and the log of the coordinating thread *)

Record Row := mkRow {
  col_title : str;
  col_extracted_text : str;
  col_summary : str;
  col_correlation : str;
  col_author : str;
  col_publication_title : str;
  col_date : str
}.

Inductive level := INFO | WARNING.

Definition LogRecord : Type := level * str.

(** What the drain loop can change: the data rows of the output file and
    the records logged by the coordinating thread, oldest first. *)
Record World := mkWorld {
  csv : list Row;
  log : list LogRecord
}.

(** Statements of the coordinating thread: they update the world and return
    or raise; what was done before a [raise] stays done. *)
Definition M (A : Type) : Type := World -> World * result A.

#[local] Instance Monad_M : Monad M := {|
  ret := fun _ a w => (w, Ok a);
  bind := fun _ _ c k w =>
    match c w with
    | (w', Ok a) => k a w'
    | (w', Raise e) => (w', Raise e)
    end
|}.

Definition raise {A} (e : exn) : M A := fun w => (w, Raise e).

(** [try: body / except <classes> as e: handler e]; [catches] tells the
    exceptions of the listed classes. *)
Definition try_except {A} (body : M A) (catches : exn -> bool)
    (handler : exn -> M A) : M A := fun w =>
  match body w with
  | (w', Raise e) => if catches e then handler e w' else (w', Raise e)
  | done => done
  end.

Definition is_Exception (_ : exn) : bool := true.

Definition is_FuturesTimeoutError (e : exn) : bool :=
  match e with
  | FuturesTimeoutError _ => true
  | Exception _ => false
  end.

Definition logging (lv : level) (msg : str) : M unit := fun w =>
  (mkWorld (csv w) (log w ++ [(lv, msg)]), Ok tt).

(** [metadata.get(key, "N/A")] *)
Definition get_or_NA (field : option str) : str :=
  match field with
  | Some v => v
  | None => txt "N/A"
  end.

(** Lines 106-112: the tuple a job returns, unpacked into the row. *)
Definition row_data (res : ResultTuple) : Row :=
  let '(title, text, summary, correlation, metadata) := res in
  mkRow title text summary correlation
        (get_or_NA (Author metadata))
        (get_or_NA (Publication_Title metadata))
        (get_or_NA (Date metadata)).

(** A future that [as_completed] yields is done: it holds what its job
    returned or raised. *)
Definition Future : Type := result ResultTuple.

Definition future_result (future : Future) : M ResultTuple := fun w =>
  (w, future).

(** What [as_completed(future_to_text, timeout=TIMEOUT)] hands to the loop:
    futures one after the other, until none is left or until the time-out
    is raised in place of the next one. *)
Inductive Completions :=
| Exhausted
| TimedOut
| Yield (future : Future) (rest : Completions).

(** The run of one batch as the coordinating thread sees it: the indices of
    the jobs in the order in which they complete before the deadline, and
    whether the deadline then passes with jobs outstanding. *)
Record Schedule := mkSchedule {
  order : list nat;
  deadline_hit : bool
}.

Fixpoint as_completed (futures : list Future) (order : list nat)
    (deadline_hit : bool) : Completions :=
  match order with
  | [] => if deadline_hit then TimedOut else Exhausted
  | i :: order' =>
      match nth_error futures i with
      | Some future => Yield future (as_completed futures order' deadline_hit)
      | None => as_completed futures order' deadline_hit
      end
  end.

(** A schedule of a batch of [n] jobs: no job completes twice, and the
    time-out is raised exactly when some job is still outstanding. *)
Fixpoint distinct (l : list nat) : bool :=
  match l with
  | [] => true
  | i :: l' => negb (existsb (Nat.eqb i) l') && distinct l'
  end.

Definition valid_schedule (n : nat) (sch : Schedule) : bool :=
  distinct (order sch)
  && forallb (fun i => i <? n) (order sch)
  && (if deadline_hit sch then length (order sch) <? n
      else length (order sch) =? n).

Definition timeout_notice : str :=
  txt "Time limit exceeded. Saving available results.".

Section Dispatcher.

Variable summarizer : str -> result str.

(** [df.to_csv(output_file, mode='a', header=False, index=False)]: the
    exception it raises, if any, for the rows already in the file and the
    row to append.  When it raises, no row is added. *)
Variable to_csv_error : list Row -> Row -> option exn.

Definition to_csv_append (data : Row) : M unit := fun w =>
  match to_csv_error (csv w) data with
  | Some e => (w, Raise e)
  | None => (mkWorld (csv w ++ [data]) (log w), Ok tt)
  end.

Definition save_to_csv_incremental (data : Row) : M unit :=
  to_csv_append data ;;
  logging INFO (txt "Row appended to CSV.").

(** [executor.submit(process_text_item_in_threads, text, summarizer)] *)
Definition submit (text : TextData) : Future :=
  outcome (process_text_item_in_threads summarizer text).

(** Lines 105-115, the body of the loop for one yielded future. *)
Definition drain_one (future : Future) : M unit :=
  try_except
    (res <- future_result future ;;
     save_to_csv_incremental (row_data res))
    is_Exception
    (fun e => logging WARNING (txt "Error processing text: " ++ exn_str e)).

(** Line 104, the [for] loop over [as_completed]. *)
Fixpoint drain (completions : Completions) : M unit :=
  match completions with
  | Exhausted => ret tt
  | TimedOut => raise (FuturesTimeoutError (txt "futures unfinished"))
  | Yield future rest => drain_one future ;; drain rest
  end.

Definition parallel_process_texts_in_threads
    (extracted_texts : list TextData) (sch : Schedule) : M unit :=
  let futures := map submit extracted_texts in
  try_except
    (drain (as_completed futures (order sch) (deadline_hit sch)))
    is_FuturesTimeoutError
    (fun _ => logging WARNING timeout_notice).

End Dispatcher.

(** ** Notions used to state and prove the properties *)

Definition head_space (t : str) : bool :=
  match t with
  | c :: _ => is_space c
  | [] => false
  end.

(** The leading run of characters that are not whitespace. *)
Fixpoint lead (t : str) : str :=
  match t with
  | c :: r => if is_space c then [] else c :: lead r
  | [] => []
  end.

Definition collapse (t : str) : str := re_sub spaces_pattern [SP] t.
Definition remove_urls (t : str) : str := re_sub url_pattern [] t.

(** A literal followed by [\S+]. *)
Definition lit_run (lit t : str) : option nat :=
  if starts_with lit t then
    option_map (fun n => length lit + n) (non_space_run (skipn (length lit) t))
  else None.

Definition https_lit : str := txt "https://".
Definition http_lit : str := txt "http://".

(** A URL match occurs at the head of [t]. *)
Definition url_at (t : str) : bool :=
  match url_pattern t with
  | Some _ => true
  | None => false
  end.

(** No URL match at any position. *)
Fixpoint url_free (t : str) : bool :=
  match t with
  | [] => true
  | _ :: r => negb (url_at t) && url_free r
  end.

(** Every whitespace character is one space, and no two are adjacent. *)
Fixpoint single_spaced (t : str) : bool :=
  match t with
  | [] => true
  | c :: r =>
      (if is_space c then Ascii.eqb c SP && negb (head_space r) else true)
      && single_spaced r
  end.

(** The last character seen after reading [a] from a position preceded by
    [prev]. *)
Definition last_seen (prev : option ascii) (a : str) : option ascii :=
  fold_left (fun _ c => Some c) a prev.

(** The lines of a text, without their newlines. *)
Definition lines (t : str) : list str := re_split is_nl t.

(** The text has a dot right after its leading digits. *)
Definition dot_after_digits (t : str) : bool :=
  starts_with ["."] (skipn (span is_digit t) t).

(** A line that begins with an integer and a dot. *)
Definition numbered (line : str) : bool :=
  (0 <? span is_digit line) && dot_after_digits line.

Definition unnumbered (line : str) : bool := negb (numbered line).

Definition non_empty (t : str) : bool :=
  match t with
  | [] => false
  | _ :: _ => true
  end.

Definition starts_non_space (t : str) : bool :=
  match t with
  | c :: _ => negb (is_space c)
  | [] => false
  end.

(** A table-of-contents line as the TitleIndexer expects it: an integer, a
    dot, whitespace, and a title that starts with a character other than
    whitespace. *)
Record TocEntry := mkTocEntry {
  number : str;
  separator : str;
  entry_title : str
}.

Definition well_formed (e : TocEntry) : bool :=
  non_empty (number e) && forallb is_digit (number e)
  && non_empty (separator e) && forallb is_space (separator e)
  && starts_non_space (entry_title e) && forallb not_nl (entry_title e).

Definition render (e : TocEntry) : str :=
  number e ++ "." :: separator e ++ entry_title e ++ [NL].

Definition render_toc (es : list TocEntry) : str := concat (map render es).

(** The text begins with an integer, a dot and a whitespace character:
    what [^\d+\.\s+] asks of the start of a line. *)
Definition marked (t : str) : bool :=
  (0 <? span is_digit t)
  && match skipn (span is_digit t) t with
     | d :: c :: _ => Ascii.eqb d "." && is_space c
     | _ => false
     end.

(** A line that starts no entry, given without the newline that ends it;
    that newline counts as whitespace after a dot. *)
Definition plain (line : str) : bool :=
  forallb not_nl line && negb (marked (line ++ [NL])).

(** What follows the last newline of a text, when it starts no entry. *)
Definition plain_end (last : str) : bool :=
  forallb not_nl last && negb (marked last).

(** The lines of a text as the TitleIndexer sees them: entries, each with
    the newline that ends its title, and other lines. *)
Inductive TocLine :=
| Entry (e : TocEntry)
| Other (line : str).

Definition line_ok (l : TocLine) : bool :=
  match l with
  | Entry e => well_formed e
  | Other line => plain line
  end.

Definition render_line (l : TocLine) : str :=
  match l with
  | Entry e => render e
  | Other line => line ++ [NL]
  end.

Definition render_lines (ls : list TocLine) : str :=
  concat (map render_line ls).

Definition titles_of (ls : list TocLine) : list str :=
  flat_map (fun l => match l with
                     | Entry e => [entry_title e]
                     | Other _ => []
                     end) ls.

(** An entry that the end of the text closes instead of a newline; its
    title may then be empty. *)
Definition well_formed_last (e : TocEntry) : bool :=
  non_empty (number e) && forallb is_digit (number e)
  && non_empty (separator e) && forallb is_space (separator e)
  && negb (head_space (entry_title e)) && forallb not_nl (entry_title e).

Definition render_last (e : TocEntry) : str :=
  number e ++ "." :: separator e ++ entry_title e.

(** A match reported relative to a text that starts [pos] characters into
    the searched one. *)
Definition shift {G} (pos : nat) (m : Match G) : Match G :=
  mkMatch (pos + m_start m) (pos + m_end m) (m_group m).

(** A pattern that asks only whether it is tried at the start of the
    searched string, not which character precedes. *)
Definition prev_blind {G} (p : pattern G) : Prop :=
  forall c c' t, p (Some c) t = p (Some c') t.

(** The slices of two sections, as bounds, share no position. *)
Definition before (a b : nat * nat) : Prop := snd a <= fst b.

(** *** The drain loop *)

Definition error_warning (e : exn) : LogRecord :=
  (WARNING, txt "Error processing text: " ++ exn_str e).

Definition row_appended : LogRecord := (INFO, txt "Row appended to CSV.").

Definition timeout_warning : LogRecord := (WARNING, timeout_notice).

Definition add_log (r : LogRecord) (w : World) : World :=
  mkWorld (csv w) (log w ++ [r]).

Definition add_row (row : Row) (w : World) : World :=
  mkWorld (csv w ++ [row]) (log w).

Definition is_ok (future : Future) : bool :=
  match future with
  | Ok _ => true
  | Raise _ => false
  end.

(** The futures that a schedule makes [as_completed] yield, in order. *)
Definition yielded (futures : list Future) (order : list nat) : list Future :=
  flat_map (fun i => match nth_error futures i with
                     | Some future => [future]
                     | None => []
                     end) order.

Definition completions_of (fs : list Future) (deadline_hit : bool)
    : Completions :=
  fold_right Yield (if deadline_hit then TimedOut else Exhausted) fs.

(** The rows and the log records that the step from [w] to [w'] added. *)
Definition rows_appended (w w' : World) : list Row :=
  skipn (length (csv w)) (csv w').

Definition log_written (w w' : World) : list LogRecord :=
  skipn (length (log w)) (log w').

Definition LogRecord_eq_dec (a b : LogRecord) : {a = b} + {a <> b}.
Proof. repeat decide equality. Defined.

Section DrainLoop.

Variable to_csv_error : list Row -> Row -> option exn.

(** The world after the loop body has handled one yielded future. *)
Definition after_one (w : World) (future : Future) : World :=
  match future with
  | Raise e => add_log (error_warning e) w
  | Ok res =>
      match to_csv_error (csv w) (row_data res) with
      | Some e => add_log (error_warning e) w
      | None => add_log row_appended (add_row (row_data res) w)
      end
  end.

Definition after_all (fs : list Future) (w : World) : World :=
  fold_left after_one fs w.

(** The rows that handling one future, then a list of them, adds. *)
Definition rows_of_one (w : World) (future : Future) : list Row :=
  match future with
  | Raise _ => []
  | Ok res =>
      match to_csv_error (csv w) (row_data res) with
      | Some _ => []
      | None => [row_data res]
      end
  end.

Fixpoint new_rows (fs : list Future) (w : World) : list Row :=
  match fs with
  | [] => []
  | f :: fs' => rows_of_one w f ++ new_rows fs' (after_one w f)
  end.

(** The one log record that handling one future writes. *)
Definition record_of_one (w : World) (future : Future) : LogRecord :=
  match future with
  | Raise e => error_warning e
  | Ok res =>
      match to_csv_error (csv w) (row_data res) with
      | Some e => error_warning e
      | None => row_appended
      end
  end.

Fixpoint new_log (fs : list Future) (w : World) : list LogRecord :=
  match fs with
  | [] => []
  | f :: fs' => record_of_one w f :: new_log fs' (after_one w f)
  end.

End DrainLoop.

(** *** Concrete capabilities and inputs for the examples *)

Definition no_metadata (_ : str) : Metadata := mkMetadata None None None.

(** A summarizer that answers with the chunk it is given. *)
Definition echo (chunk : str) : result str := Ok chunk.

(** A summarizer that raises on every call. *)
Definition broken (_ : str) : result str := Raise (Exception (txt "boom")).

(** A sink that accepts every write. *)
Definition writable (_ : list Row) (_ : Row) : option exn := None.

(** A sink that cannot write the rows of one title. *)
Definition rejects (title : str) (_ : list Row) (row : Row) : option exn :=
  if (length title =? length (col_title row))
     && starts_with title (col_title row)
  then Some (Exception (txt "disk full")) else None.

Definition empty_world : World := mkWorld [] [].

Definition short_section : TextData :=
  (txt "Climate Risk", txt "Body A.", mkMetadata None None None).

Definition long_section : TextData :=
  (txt "Flood Policy",
   txt "Body B is unrelated and long enough to be handed to the summarizer.",
   mkMetadata None None None).

(** A file whose only title is followed at once by a second title line. *)
Definition doc_adjacent : str :=
  txt "1. T" ++ NL :: txt "T" ++ NL :: txt "T" ++ NL :: txt "body".

(** A file in which the title occurs twice more after such a pair. *)
Definition doc_overlap : str :=
  txt "1. T" ++ NL :: txt "T" ++ NL :: txt "T" ++ NL :: NL :: txt "T" ++ NL
  :: txt "xyz".

(** A file with the table of contents and the body of the example of the
    specification. *)
Definition doc_example : str :=
  txt "1. Climate Risk" ++ NL :: txt "2. Flood Policy" ++ NL
  :: txt "Climate Risk" ++ NL
  :: txt "Body A mentions climate change and insurance costs." ++ NL
  :: txt "Flood Policy" ++ NL :: txt "Body B unrelated." ++ [NL].

(** A file whose section has the two keywords in one sentence, with a line
    break inside the first keyword. *)
Definition doc_climate : str :=
  txt "1. T" ++ NL :: txt "T" ++ NL :: txt "Climate" ++ NL
  :: txt "change raises insurance costs for coastal homes every year".

(** * The rest of the program *)

From Stdlib Require DecimalString Permutation NArith.

(** ** MetadataExtractor: [extract_metadata] *)

(** [pattern.search(text)] for a pattern that does not look behind: the
    match at the leftmost position that has one.  [at_pos] answers for
    the text from one position on with the group the caller reads. *)
Fixpoint re_search {G} (at_pos : str -> option G) (t : str) : option G :=
  match at_pos t with
  | Some g => Some g
  | None =>
      match t with
      | [] => None
      | _ :: r => re_search at_pos r
      end
  end.

(** An alternation of literals under [(?i)]: the length of the first one
    that the text starts with.  In each of the three patterns the two
    literals begin with different letters, so at most one applies at a
    position. *)
Fixpoint alternation (lits : list str) (t : str) : option nat :=
  match lits with
  | [] => None
  | lit :: lits' =>
      if istarts_with lit t then Some (length lit) else alternation lits' t
  end.

(** The class [[:\-\s]]. *)
Definition is_sep (c : ascii) : bool :=
  Ascii.eqb c ":" || Ascii.eqb c "-" || is_space c.

Definition is_letter (c : ascii) : bool := between 65 90 c || between 97 122 c.

(** The class [[A-Za-z,. ]] under [(?i)], below 256. *)
Definition is_name_char (c : ascii) : bool :=
  is_letter c || Ascii.eqb c "," || Ascii.eqb c "." || Ascii.eqb c SP.

(** [author_pattern] at one position: [(author|by)], then [\s*] and
    [[:\-\s]*], which together run greedily to the end [e] of the separator
    run, then the group [[A-Za-z,. ]+].  When the character at [e] is of
    the group's class, the group is the run from there.  Otherwise the
    engine gives separators back one by one, and the only separator the
    group accepts is a space: the group is then the last space of the run,
    alone, since what follows it is not of the class. *)
Definition author_at (t : str) : option str :=
  match alternation [txt "author"; txt "by"] t with
  | Some n =>
      let r := skipn n t in
      let e := span is_sep r in
      let rest := skipn e r in
      match span is_name_char rest with
      | O => if existsb (Ascii.eqb SP) (firstn e r) then Some [SP] else None
      | g => Some (firstn g rest)
      end
  | None => None
  end.

(** [title_pattern] of line 15 at one position: [(publication title|title)],
    then [:?], [\s*] and [[:\-\s]*] up to the end of the separator run, then
    the lazy group, which grows until a newline or the end of the text
    follows.  This never fails once the literal is found. *)
Definition publication_title_at (t : str) : option str :=
  match alternation [txt "publication title"; txt "title"] t with
  | Some n =>
      let r := skipn n t in
      let rest := skipn (span is_sep r) r in
      Some (firstn (span not_nl rest) rest)
  | None => None
  end.

(** [\d{4}-\d{2}-\d{2}] on a whole text. *)
Definition is_date (d : str) : bool :=
  match d with
  | [y1; y2; y3; y4; h1; m1; m2; h2; d1; d2] =>
      forallb is_digit [y1; y2; y3; y4; m1; m2; d1; d2]
      && Ascii.eqb h1 "-" && Ascii.eqb h2 "-"
  | _ => false
  end.

(** [date_pattern] at one position: [(date|published)], the separators,
    then the date.  The date begins with a digit and no separator is one,
    so it can only start at the end of the separator run. *)
Definition date_at (t : str) : option str :=
  match alternation [txt "date"; txt "published"] t with
  | Some n =>
      let r := skipn n t in
      let rest := skipn (span is_sep r) r in
      if is_date (firstn 10 rest) then Some (firstn 10 rest) else None
  | None => None
  end.

(** Each key is set only when its pattern is found, to [group(2).strip()]. *)
Definition extract_metadata (text : str) : Metadata :=
  mkMetadata (option_map strip (re_search author_at text))
             (option_map strip (re_search publication_title_at text))
             (option_map strip (re_search date_at text)).

(** ** The author and the publication title beyond Latin-1

    The files are read as UTF-8, so a text may hold any code point.  Two
    things change above 255 for the patterns of lines 14 and 15: [\s] and
    [strip] know more whitespace, and [(?i)] lets four more letters stand
    for i, s and k.  What [extract_metadata] stores under Author and
    under Publication Title is modelled here over code points.  (The
    class [\d] of line 16 has 660 members in as many as 66 blocks that
    depend on the version of Unicode; the Date key is not taken up.) *)

Module Unicode.

Import NArith.BinNat.
#[local] Open Scope N_scope.

(** A text is the sequence of its code points. *)
Definition text := list N.

Definition of_str (t : str) : text := map N_of_ascii t.

Definition lit (s : string) : text := of_str (txt s).

Definition in_range (lo hi c : N) : bool := (lo <=? c) && (c <=? hi).

(** [str.isspace] for one code point, which is also the class [\s]. *)
Definition is_space (c : N) : bool :=
  in_range 9 13 c || in_range 28 32 c || (c =? 0x85) || (c =? 0xA0)
  || (c =? 0x1680) || in_range 0x2000 0x200A c || in_range 0x2028 0x2029 c
  || (c =? 0x202F) || (c =? 0x205F) || (c =? 0x3000).

Definition NL : N := 10.
Definition SP : N := 32.

Definition not_nl (c : N) : bool := negb (c =? NL).

(** A character [p] of a literal of lines 14 and 15, a small ASCII letter
    or a space, against a code point under [(?i)]: the letter itself, its
    capital, and the code points that the engine folds onto it, U+0130
    and U+0131 onto i, U+017F onto s, U+212A onto k. *)
Definition ieq (p c : N) : bool :=
  (c =? p)
  || (in_range 97 122 p && (c =? p - 32))
  || ((p =? 105) && in_range 0x130 0x131 c)
  || ((p =? 115) && (c =? 0x17F))
  || ((p =? 107) && (c =? 0x212A)).

(** The class [[:\-\s]]. *)
Definition is_sep (c : N) : bool := (c =? 58) || (c =? 45) || is_space c.

(** The class [[A-Za-z,. ]] under [(?i)]: the ASCII letters, the four
    code points folded onto i, s and k, the comma, the period and the
    space. *)
Definition is_name_char (c : N) : bool :=
  in_range 65 90 c || in_range 97 122 c
  || in_range 0x130 0x131 c || (c =? 0x17F) || (c =? 0x212A)
  || (c =? 44) || (c =? 46) || (c =? SP).

Fixpoint span (p : N -> bool) (t : text) : nat :=
  match t with
  | c :: r => if p c then S (span p r) else 0
  | [] => 0
  end.

Fixpoint lstrip (t : text) : text :=
  match t with
  | c :: r => if is_space c then lstrip r else t
  | [] => []
  end.

Fixpoint rstrip (t : text) : text :=
  match t with
  | c :: r =>
      match rstrip r with
      | [] => if is_space c then [] else [c]
      | r' => c :: r'
      end
  | [] => []
  end.

Definition strip (t : text) : text := rstrip (lstrip t).

Fixpoint istarts_with (lit t : text) : bool :=
  match lit, t with
  | [], _ => true
  | p :: lit', c :: t' => ieq p c && istarts_with lit' t'
  | _ :: _, [] => false
  end.

Fixpoint alternation (lits : list text) (t : text) : option nat :=
  match lits with
  | [] => None
  | lit :: lits' =>
      if istarts_with lit t then Some (length lit) else alternation lits' t
  end.

Fixpoint re_search {G} (at_pos : text -> option G) (t : text) : option G :=
  match at_pos t with
  | Some g => Some g
  | None =>
      match t with
      | [] => None
      | _ :: r => re_search at_pos r
      end
  end.

(** [author_pattern] at one position; the engine falls back on the last
    space of the separator run as it does below 256, the space being the
    only character in both classes. *)
Definition author_at (t : text) : option text :=
  match alternation [lit "author"; lit "by"] t with
  | Some n =>
      let r := skipn n t in
      let e := span is_sep r in
      let rest := skipn e r in
      match span is_name_char rest with
      | O => if existsb (N.eqb SP) (firstn e r) then Some [SP] else None
      | g => Some (firstn g rest)
      end
  | None => None
  end.

(** [title_pattern] of line 15 at one position. *)
Definition publication_title_at (t : text) : option text :=
  match alternation [lit "publication title"; lit "title"] t with
  | Some n =>
      let r := skipn n t in
      let rest := skipn (span is_sep r) r in
      Some (firstn (span not_nl rest) rest)
  | None => None
  end.

(** [extract_metadata(text).get('Author')] and
    [extract_metadata(text).get('Publication Title')] *)
Definition metadata_author (t : text) : option text :=
  option_map strip (re_search author_at t).

Definition metadata_publication_title (t : text) : option text :=
  option_map strip (re_search publication_title_at t).

(** [lit] stands somewhere in [t], up to case as [(?i)] folds it. *)
Fixpoint occurs (lit t : text) : bool :=
  istarts_with lit t ||
  match t with
  | _ :: t' => occurs lit t'
  | [] => false
  end.

Definition head_space (t : text) : bool :=
  match t with
  | c :: _ => is_space c
  | [] => false
  end.

(** Nothing to strip at either end. *)
Definition stripped (t : text) : bool :=
  negb (head_space t) && negb (head_space (rev t)).

(** Examples: "Title: x " written with a dotless i, and an author
    written with the Kelvin sign and a long s. *)
Definition dotless_title : text :=
  [84; 0x131] ++ lit "tle: x ".

Definition kelvin_smith : text :=
  [0x212A] ++ lit "elvin " ++ [0x17F] ++ lit "mith".

Definition by_kelvin_smith : text := lit "by " ++ kelvin_smith ++ lit " 9".

End Unicode.

(** ** SummaryDriver: the chunks *)

(** The chunks of lines 64-65 for an already stripped text. *)
Definition chunks_of (text : str) : list str :=
  map (fun i => slice text i (i + max_chunk_size))
      (range_step (length text) max_chunk_size).

Definition too_short : str := txt "Text too short to summarize".

(** ** The run over a folder: [initialize_csv] and [main] *)

(** [text.endswith(suffix)] *)
Definition ends_with (suffix t : str) : bool :=
  starts_with (rev suffix) (rev t).

(** [os.path.join(a, b)] of [posixpath]. *)
Definition os_path_join (a b : str) : str :=
  if starts_with ["/"] b then b
  else if match a with [] => true | _ => ends_with ["/"] a end then a ++ b
  else a ++ "/" :: b.

(** [str(n)] for a length. *)
Definition decimal (n : nat) : str :=
  list_ascii_of_string (DecimalString.NilZero.string_of_uint (Nat.to_uint n)).

Definition processed_notice : LogRecord :=
  (INFO, txt "All files processed successfully.").

Section Main.

Variable summarizer : str -> result str.
Variable to_csv_error : list Row -> Row -> option exn.

(** [df.to_csv(output_file, index=False)] of [initialize_csv]: the
    exception it raises, if any, before the file is touched. *)
Variable create_error : option exn.

(** [open(file_path, 'r', encoding='utf-8')] and [file.read()]: the text
    of the file at a path, or the exception raised. *)
Variable read_file : str -> result str.

(** How the batch of the file at a path runs. *)
Variable schedule_of : str -> Schedule.

(** The header is written over whatever the file held. *)
Definition to_csv_create : M unit := fun w =>
  match create_error with
  | Some e => (w, Raise e)
  | None => (mkWorld [] (log w), Ok tt)
  end.

Definition initialize_csv (output_file : str) : M unit :=
  to_csv_create ;;
  logging INFO (txt "CSV initialized at " ++ output_file).

Definition read (file_path : str) : M str := fun w => (w, read_file file_path).

(** [extract_titles_from_toc] and [extract_text_beneath_duplicates] as
    [main] calls them, with the records they log and the file they read. *)
Definition extract_titles_from_toc_io (file_path : str) : M (list str) :=
  logging INFO (txt "Extracting titles from Table of Contents.") ;;
  content <- read file_path ;;
  ret (extract_titles_from_toc content).

Definition extract_text_beneath_duplicates_io (file_path : str)
    (titles : list str) : M (list TextData) :=
  logging INFO (txt "Extracting text beneath duplicates in " ++ file_path
                ++ txt ".") ;;
  content <- read file_path ;;
  let extracted_texts :=
    extract_text_beneath_duplicates extract_metadata content titles in
  logging INFO (txt "Extracted " ++ decimal (length extracted_texts)
                ++ txt " text sections.") ;;
  ret extracted_texts.

(** Lines 129-138, the body of the loop of [main] for one name. *)
Definition process_file (input_folder filename : str) : M unit :=
  if ends_with (txt ".txt") filename then
    let file_path := os_path_join input_folder filename in
    logging INFO (txt "Processing file: " ++ file_path) ;;
    titles <- extract_titles_from_toc_io file_path ;;
    extracted_texts <- extract_text_beneath_duplicates_io file_path titles ;;
    parallel_process_texts_in_threads summarizer to_csv_error
      extracted_texts (schedule_of file_path)
  else ret tt.

Fixpoint for_each {A} (body : A -> M unit) (l : list A) : M unit :=
  match l with
  | [] => ret tt
  | x :: l' => body x ;; for_each body l'
  end.

End Main.

(** A call that returns or raises and touches neither the output file
    nor the log. *)
Definition call {A} (r : result A) : M A := fun w => (w, r).

Section Program.

(** [pipeline("summarization", model="facebook/bart-large-cnn",
    device=-1)]: the summarizer it builds, or the exception it raises. *)
Variable pipeline : result (str -> result str).

Variable to_csv_error : list Row -> Row -> option exn.
Variable create_error : option exn.
Variable read_file : str -> result str.
Variable schedule_of : str -> Schedule.

(** [os.listdir(path)]: the names in the folder, in the order in which it
    gives them, or the exception it raises. *)
Variable listdir : str -> result (list str).

Definition main (input_folder output_file : str) : M unit :=
  initialize_csv create_error output_file ;;
  summarizer <- call pipeline ;;
  listing <- call (listdir input_folder) ;;
  for_each (process_file summarizer to_csv_error read_file schedule_of
              input_folder) listing ;;
  logging INFO (txt "All files processed successfully.").

End Program.

(** ** Notions used to state the properties of the rest *)

(** The last character of a text is whitespace. *)
Definition tail_space (t : str) : bool := head_space (rev t).

(** Nothing to strip at either end. *)
Definition stripped (t : str) : bool :=
  negb (head_space t) && negb (tail_space t).

(** [head_in p t]: the text is not empty and its first character is in the
    class [p]. *)
Definition head_in (p : ascii -> bool) (t : str) : bool :=
  match t with
  | c :: _ => p c
  | [] => false
  end.

(** The length of [sep.join(l)] for a separator of one character, plus
    one, when [l] is not empty. *)
Definition weight (l : list str) : nat :=
  list_sum (map (fun p => S (length p)) l).

(** What the jobs that returned hold, in the order of the futures. *)
Definition successes (fs : list Future) : list ResultTuple :=
  flat_map (fun f => match f with
                     | Ok res => [res]
                     | Raise _ => []
                     end) fs.

(** The text and the metadata of a section, without its title. *)
Definition section_body (sec : TextData) : str * Metadata :=
  (snd (fst sec), snd sec).

Definition add_logs (rs : list LogRecord) (w : World) : World :=
  mkWorld (csv w) (log w ++ rs).

Definition txt_file (filename : str) : bool := ends_with (txt ".txt") filename.

(** A folder seen through its ".txt" names only. *)
Definition txt_files_only (listdir : str -> result (list str))
    (path : str) : result (list str) :=
  match listdir path with
  | Ok names => Ok (filter txt_file names)
  | Raise e => Raise e
  end.

(** The output file and the log once the header is written. *)
Definition initialized (output_file : str) (w : World) : World :=
  mkWorld [] (log w ++ [(INFO, txt "CSV initialized at " ++ output_file)]).

Section MainNotions.

Variable summarizer : str -> result str.
Variable read_file : str -> result str.
Variable schedule_of : str -> Schedule.

(** The sections of a file: the titles of its table of contents, looked
    up in the same text. *)
Definition sections_of_file (content : str) : list TextData :=
  extract_text_beneath_duplicates extract_metadata content
    (extract_titles_from_toc content).

(** The records logged for a file before its batch starts. *)
Definition file_preamble (file_path content : str) : list LogRecord :=
  [(INFO, txt "Processing file: " ++ file_path);
   (INFO, txt "Extracting titles from Table of Contents.");
   (INFO, txt "Extracting text beneath duplicates in " ++ file_path
          ++ txt ".");
   (INFO, txt "Extracted " ++ decimal (length (sections_of_file content))
          ++ txt " text sections.")].


Definition readable (file_path : str) : bool :=
  match read_file file_path with
  | Ok _ => true
  | Raise _ => false
  end.

End MainNotions.

(** *** A folder for the examples *)

Definition str_eqb (a b : str) : bool :=
  (length a =? length b) && starts_with a b.

(** A folder in which "a.txt" holds the example of the specification,
    "b.txt" cannot be decoded and nothing else can be opened. *)
Definition example_disk (file_path : str) : result str :=
  if str_eqb file_path (txt "proquest_docs/a.txt") then Ok doc_example
  else if str_eqb file_path (txt "proquest_docs/b.txt")
  then Raise (Exception (txt "'utf-8' codec can't decode byte"))
  else Raise (Exception (txt "No such file or directory")).

(** Every batch completes, its second job first. *)
Definition second_first (_ : str) : Schedule := mkSchedule [1; 0] false.

(** A folder with the given names in it. *)
Definition folder_of (names : list str) (path : str) : result (list str) :=
  if str_eqb path (txt "proquest_docs") then Ok names
  else Raise (Exception (txt "No such file or directory")).

(** * Properties *)

(** ** Strings *)

Lemma is_nl_true c : is_nl c = true -> c = NL.
Proof. unfold is_nl. apply Ascii.eqb_eq. Qed.

Lemma lstrip_skipn t : lstrip t = skipn (span is_space t) t.
Proof.
  induction t as [|c r IH]; simpl; [reflexivity|].
  destruct (is_space c); [exact IH | reflexivity].
Qed.

Lemma head_space_lstrip t : head_space (lstrip t) = false.
Proof.
  induction t as [|c r IH]; simpl; [reflexivity|].
  destruct (is_space c) eqn:E; [exact IH | simpl; exact E].
Qed.

Lemma lstrip_fixed t : head_space t = false -> lstrip t = t.
Proof. destruct t as [|c r]; simpl; [reflexivity|]. now intros ->. Qed.

Lemma rstrip_cons c r :
  rstrip (c :: r) =
  match rstrip r with
  | [] => if is_space c then [] else [c]
  | _ :: _ => c :: rstrip r
  end.
Proof. simpl. destruct (rstrip r); reflexivity. Qed.

Lemma head_space_rstrip t : head_space t = false -> head_space (rstrip t) = false.
Proof.
  destruct t as [|c r]; [reflexivity|].
  rewrite rstrip_cons. simpl. intros E.
  destruct (rstrip r); [rewrite E|]; simpl; auto.
Qed.

Lemma rstrip_idem t : rstrip (rstrip t) = rstrip t.
Proof.
  induction t as [|c r IH]; [reflexivity|].
  rewrite rstrip_cons. destruct (rstrip r) as [|d r'] eqn:E.
  - destruct (is_space c) eqn:Ec; [reflexivity|]. simpl. now rewrite Ec.
  - rewrite rstrip_cons, IH. reflexivity.
Qed.

Lemma lead_rstrip t : lead (rstrip t) = lead t.
Proof.
  induction t as [|c r IH]; [reflexivity|].
  rewrite rstrip_cons. simpl lead at 2.
  destruct (rstrip r) as [|d r'] eqn:E; simpl.
  - destruct (is_space c) eqn:Ec; simpl; [reflexivity|].
    rewrite Ec, <- IH. reflexivity.
  - destruct (is_space c); [reflexivity|]. now rewrite <- IH.
Qed.

Lemma strip_idem t : strip (strip t) = strip t.
Proof.
  unfold strip. rewrite lstrip_fixed.
  - apply rstrip_idem.
  - apply head_space_rstrip, head_space_lstrip.
Qed.

(** Induction over a text where the hypothesis is available for every
    suffix of the tail, as a scanner that jumps over a match needs it. *)
Lemma suffix_ind (P : str -> Prop) :
  P [] ->
  (forall c r, (forall k, P (skipn k r)) -> P (c :: r)) ->
  forall t, P t.
Proof.
  intros Hnil Hcons t.
  enough (H : forall k, P (skipn k t)) by exact (H 0).
  induction t as [|c r IH]; intros k.
  - now rewrite skipn_nil.
  - destruct k as [|k]; simpl; [|apply IH].
    apply Hcons, IH.
Qed.

(** ** [re.sub] *)

Lemma sub_scan_skip m repl k t :
  sub_scan m repl k t = sub_scan m repl 0 (skipn k t).
Proof.
  revert k. induction t as [|c r IH]; intros [|k]; try reflexivity.
  simpl. apply IH.
Qed.

Lemma re_sub_cons m repl c r :
  re_sub m repl (c :: r) =
  match m (c :: r) with
  | Some (S k) => repl ++ re_sub m repl (skipn k r)
  | _ => c :: re_sub m repl r
  end.
Proof.
  unfold re_sub. simpl. destruct (m (c :: r)) as [[|k]|]; try reflexivity.
  now rewrite sub_scan_skip.
Qed.

Lemma starts_with_split lit t :
  starts_with lit t = true -> t = lit ++ skipn (length lit) t.
Proof.
  revert t. induction lit as [|p lit IH]; intros [|c r]; simpl; try easy.
  intros H. apply andb_prop in H as [Hc Hr].
  apply Ascii.eqb_eq in Hc as ->. f_equal. now apply IH.
Qed.

Lemma starts_with_app lit t q :
  starts_with lit t = true -> starts_with lit (t ++ q) = true.
Proof.
  revert t. induction lit as [|p lit IH]; intros [|c r]; simpl; try easy.
  intros H. apply andb_prop in H as [-> Hr]. simpl. now apply IH.
Qed.

Lemma starts_with_app_long lit t q :
  length lit <= length t -> starts_with lit (t ++ q) = starts_with lit t.
Proof.
  revert t. induction lit as [|p lit IH]; intros [|c r]; simpl; try easy; try lia.
  intros H. f_equal. apply IH. lia.
Qed.

Lemma starts_with_lead lit t :
  forallb non_space lit = true -> starts_with lit (lead t) = starts_with lit t.
Proof.
  revert t. induction lit as [|p lit IH]; intros [|c r] H; simpl; try reflexivity.
  simpl in H. apply andb_prop in H as [Hp Hl].
  destruct (is_space c) eqn:Ec; simpl.
  - destruct (Ascii.eqb_spec p c) as [->|]; [|reflexivity].
    unfold non_space in Hp. now rewrite Ec in Hp.
  - f_equal. now apply IH.
Qed.

Lemma span_lead t : span non_space (lead t) = span non_space t.
Proof.
  induction t as [|c r IH]; simpl; [reflexivity|]. unfold non_space at 2.
  destruct (is_space c) eqn:E; simpl; [reflexivity|].
  unfold non_space at 1. now rewrite E, IH.
Qed.

Lemma skipn_lead lit t :
  forallb non_space lit = true -> starts_with lit t = true ->
  skipn (length lit) (lead t) = lead (skipn (length lit) t).
Proof.
  revert t. induction lit as [|p lit IH]; intros [|c r] Hl H; simpl in *; try easy.
  apply andb_prop in Hl as [Hp Hl]. apply andb_prop in H as [Hc H].
  apply Ascii.eqb_eq in Hc as <-. unfold non_space in Hp.
  destruct (is_space p); [discriminate|]. simpl. now apply IH.
Qed.

Lemma span_app_pos p t q n :
  span p t = S n -> exists n', span p (t ++ q) = S n'.
Proof.
  destruct t as [|c r]; simpl; [discriminate|].
  destruct (p c); [eauto | discriminate].
Qed.

(** ** The two patterns of [clean_text] *)

Lemma clean_text_unfold t : clean_text t = strip (collapse (remove_urls t)).
Proof. reflexivity. Qed.

Lemma collapse_cons c r :
  collapse (c :: r) =
  if is_space c then SP :: collapse (lstrip r) else c :: collapse r.
Proof.
  unfold collapse. rewrite re_sub_cons. unfold spaces_pattern. simpl span.
  destruct (is_space c); [|reflexivity].
  now rewrite lstrip_skipn.
Qed.

Lemma url_pattern_lit t :
  url_pattern t =
  if starts_with https_lit t then lit_run https_lit t else lit_run http_lit t.
Proof.
  unfold url_pattern, lit_run. fold https_lit http_lit.
  destruct (starts_with https_lit t); [reflexivity|].
  destruct (starts_with http_lit t); reflexivity.
Qed.

Lemma lit_run_lead lit t :
  forallb non_space lit = true -> lit_run lit (lead t) = lit_run lit t.
Proof.
  intros Hl. unfold lit_run. rewrite starts_with_lead by assumption.
  destruct (starts_with lit t) eqn:E; [|reflexivity].
  rewrite skipn_lead by assumption. unfold non_space_run.
  now rewrite span_lead.
Qed.

Lemma lit_run_length lit t n :
  lit_run lit t = Some n -> length lit < length t.
Proof.
  unfold lit_run. destruct (starts_with lit t) eqn:E; [|discriminate].
  apply starts_with_split in E. unfold non_space_run.
  destruct (skipn (length lit) t) as [|c r] eqn:Er; simpl; [discriminate|].
  intros _. rewrite E, length_app. simpl. lia.
Qed.

Lemma lit_run_app lit t q n :
  lit_run lit t = Some n -> exists n', lit_run lit (t ++ q) = Some n'.
Proof.
  intros H. pose proof (lit_run_length _ _ _ H) as Hlen. revert H.
  unfold lit_run. destruct (starts_with lit t) eqn:E; [|discriminate].
  rewrite (starts_with_app _ _ q E), skipn_app.
  replace (length lit - length t) with 0 by lia. simpl skipn.
  unfold non_space_run.
  destruct (span non_space (skipn (length lit) t)) as [|k] eqn:Ek; [discriminate|].
  destruct (span_app_pos _ _ q _ Ek) as [k' ->]. simpl. eauto.
Qed.

Lemma url_at_lead t : url_at (lead t) = url_at t.
Proof.
  unfold url_at. rewrite !url_pattern_lit.
  rewrite starts_with_lead, !lit_run_lead by reflexivity. reflexivity.
Qed.

Lemma url_at_app t q : url_at t = true -> url_at (t ++ q) = true.
Proof.
  unfold url_at. rewrite !url_pattern_lit.
  destruct (starts_with https_lit t) eqn:E.
  - rewrite (starts_with_app _ _ q E).
    destruct (lit_run https_lit t) as [n|] eqn:En; [|discriminate].
    now destruct (lit_run_app _ _ q _ En) as [n' ->].
  - destruct (lit_run http_lit t) as [n|] eqn:En; [|discriminate].
    pose proof (lit_run_length _ _ _ En) as Hlen.
    rewrite starts_with_app_long, E by (simpl in *; lia).
    now destruct (lit_run_app _ _ q _ En) as [n' ->].
Qed.

Lemma url_at_space c r : is_space c = true -> url_at (c :: r) = false.
Proof.
  intros E. rewrite <- url_at_lead. simpl. now rewrite E.
Qed.

Lemma span_app_all p lit t :
  forallb p lit = true -> span p (lit ++ t) = length lit + span p t.
Proof.
  induction lit as [|c lit IH]; simpl; [reflexivity|].
  intros H. apply andb_prop in H as [-> H]. now rewrite IH.
Qed.

Lemma lit_run_span lit t n :
  forallb non_space lit = true -> lit_run lit t = Some n ->
  n = span non_space t /\ 0 < n.
Proof.
  intros Hl. unfold lit_run. destruct (starts_with lit t) eqn:E; [|discriminate].
  apply starts_with_split in E. rewrite E at 2.
  rewrite span_app_all by assumption. unfold non_space_run.
  destruct (span non_space (skipn (length lit) t)); [discriminate|].
  simpl. intros [= <-]. lia.
Qed.

Lemma url_pattern_span t n :
  url_pattern t = Some n -> n = span non_space t /\ 0 < n.
Proof.
  rewrite url_pattern_lit.
  destruct (starts_with https_lit t); now apply lit_run_span.
Qed.

Lemma lead_after_run t : lead (skipn (span non_space t) t) = [].
Proof.
  induction t as [|c r IH]; simpl; [reflexivity|]. unfold non_space at 1.
  destruct (is_space c) eqn:E; simpl; [now rewrite E | exact IH].
Qed.

Lemma remove_urls_cons c r :
  remove_urls (c :: r) =
  if url_at (c :: r) then remove_urls (skipn (span non_space r) r)
  else c :: remove_urls r.
Proof.
  unfold remove_urls, url_at. rewrite re_sub_cons.
  destruct (url_pattern (c :: r)) as [n|] eqn:E; [|reflexivity].
  apply url_pattern_span in E as [-> Hpos]. simpl in *.
  destruct (non_space c); [reflexivity | lia].
Qed.

Lemma lead_nil_remove_urls t : lead t = [] -> lead (remove_urls t) = [].
Proof.
  destruct t as [|c r]; [reflexivity|]. simpl.
  destruct (is_space c) eqn:E; [|discriminate]. intros _.
  rewrite remove_urls_cons, url_at_space by assumption. simpl. now rewrite E.
Qed.

(** Removing URLs can only shorten the leading run. *)
Lemma lead_remove_urls t : exists q, lead t = lead (remove_urls t) ++ q.
Proof.
  induction t as [|c r [q IH]]; [now exists []|].
  rewrite remove_urls_cons. destruct (url_at (c :: r)) eqn:E.
  - rewrite lead_nil_remove_urls by apply lead_after_run. now eexists.
  - simpl. destruct (is_space c); [now exists []|].
    exists q. simpl. now f_equal.
Qed.

Lemma url_free_fixed t : url_free t = true -> remove_urls t = t.
Proof.
  induction t as [|c r IH]; [reflexivity|]. simpl. intros H.
  apply andb_prop in H as [Hc Hr]. apply negb_true_iff in Hc.
  rewrite remove_urls_cons, Hc. f_equal. now apply IH.
Qed.

Lemma url_free_skipn k t : url_free t = true -> url_free (skipn k t) = true.
Proof.
  revert t. induction k as [|k IH]; intros [|c r]; simpl; try easy.
  intros H. apply andb_prop in H as [_ H]. now apply IH.
Qed.

Lemma url_at_cons_lead c r r' :
  lead r' = lead r -> url_at (c :: r') = url_at (c :: r).
Proof.
  intros H. rewrite <- (url_at_lead (c :: r')), <- (url_at_lead (c :: r)).
  simpl. now rewrite H.
Qed.

Lemma url_free_remove_urls t : url_free (remove_urls t) = true.
Proof.
  induction t as [|c r IH] using suffix_ind; [reflexivity|].
  rewrite remove_urls_cons. destruct (url_at (c :: r)) eqn:E; [apply IH|].
  pose proof (IH 0) as IH0. simpl in IH0.
  simpl. rewrite IH0, andb_true_r. apply negb_true_iff.
  destruct (url_at (c :: remove_urls r)) eqn:E'; [|reflexivity].
  rewrite <- url_at_lead in E'. rewrite <- E, <- (url_at_lead (c :: r)).
  destruct (lead_remove_urls (c :: r)) as [q Hq].
  rewrite remove_urls_cons, E in Hq. rewrite Hq.
  symmetry. now apply url_at_app.
Qed.

(** ** Whitespace *)

Lemma lead_collapse t : lead (collapse t) = lead t.
Proof.
  induction t as [|c r IH]; [reflexivity|].
  rewrite collapse_cons. simpl. destruct (is_space c) eqn:E; simpl.
  - reflexivity.
  - now rewrite E, IH.
Qed.

Lemma head_space_collapse t : head_space (collapse t) = head_space t.
Proof.
  destruct t as [|c r]; [reflexivity|].
  rewrite collapse_cons. simpl. destruct (is_space c) eqn:E; simpl; auto.
Qed.

Lemma url_free_collapse t : url_free t = true -> url_free (collapse t) = true.
Proof.
  induction t as [|c r IH] using suffix_ind; [reflexivity|].
  cbn [url_free]. intros H. apply andb_prop in H as [Hc Hr].
  rewrite collapse_cons. destruct (is_space c) eqn:E.
  - cbn [url_free]. rewrite url_at_space by reflexivity. simpl.
    rewrite lstrip_skipn. apply IH. now apply url_free_skipn.
  - cbn [url_free]. rewrite (url_at_cons_lead c r) by apply lead_collapse.
    rewrite Hc. simpl. apply (IH 0), Hr.
Qed.

Lemma url_free_lstrip t : url_free t = true -> url_free (lstrip t) = true.
Proof. rewrite lstrip_skipn. apply url_free_skipn. Qed.

Lemma url_free_rstrip t : url_free t = true -> url_free (rstrip t) = true.
Proof.
  induction t as [|c r IH]; [reflexivity|].
  intros H. pose proof H as H0. simpl in H. apply andb_prop in H as [Hc Hr].
  specialize (IH Hr).
  assert (Hat : url_at (rstrip (c :: r)) = false).
  { rewrite <- url_at_lead, lead_rstrip, url_at_lead. now apply negb_true_iff. }
  revert Hat. rewrite rstrip_cons.
  destruct (rstrip r) as [|d r'] eqn:Er.
  - destruct (is_space c); [reflexivity|]. simpl. now intros ->.
  - intros Hat. change (url_free (c :: d :: r')) with
      (negb (url_at (c :: d :: r')) && url_free (d :: r')).
    now rewrite Hat, IH.
Qed.

Lemma single_spaced_collapse t : single_spaced (collapse t) = true.
Proof.
  induction t as [|c r IH] using suffix_ind; [reflexivity|].
  rewrite collapse_cons. destruct (is_space c) eqn:E; simpl.
  - rewrite head_space_collapse, head_space_lstrip, lstrip_skipn. apply IH.
  - rewrite E. apply (IH 0).
Qed.

Lemma single_spaced_fixed t : single_spaced t = true -> collapse t = t.
Proof.
  induction t as [|c r IH]; [reflexivity|]. simpl. intros H.
  apply andb_prop in H as [Hc Hr]. rewrite collapse_cons.
  destruct (is_space c).
  - apply andb_prop in Hc as [Hc Hh]. apply Ascii.eqb_eq in Hc as ->.
    apply negb_true_iff in Hh. rewrite lstrip_fixed by assumption.
    f_equal. now apply IH.
  - f_equal. now apply IH.
Qed.

Lemma single_spaced_lstrip t :
  single_spaced t = true -> single_spaced (lstrip t) = true.
Proof.
  induction t as [|c r IH]; [reflexivity|]. intros H. simpl.
  destruct (is_space c) eqn:E; [|exact H].
  simpl in H. apply andb_prop in H as [_ H]. now apply IH.
Qed.

Lemma single_spaced_rstrip t :
  single_spaced t = true -> single_spaced (rstrip t) = true.
Proof.
  induction t as [|c r IH]; [reflexivity|]. cbn [single_spaced]. intros H.
  apply andb_prop in H as [Hc Hr]. specialize (IH Hr).
  rewrite rstrip_cons. destruct (rstrip r) as [|d r'] eqn:Er.
  - destruct (is_space c) eqn:E; [reflexivity|]. simpl. now rewrite E.
  - rewrite <- Er in *. cbn [single_spaced]. rewrite IH, andb_true_r.
    destruct (is_space c); [|reflexivity].
    apply andb_prop in Hc as [-> Hh]. apply negb_true_iff in Hh.
    now rewrite head_space_rstrip.
Qed.

(** What [clean_text] returns is in normal form: no URL, single spaces
    only, no space at either end. *)
Lemma clean_text_url_free t : url_free (clean_text t) = true.
Proof.
  rewrite clean_text_unfold. unfold strip.
  apply url_free_rstrip, url_free_lstrip, url_free_collapse,
    url_free_remove_urls.
Qed.

Lemma clean_text_single_spaced t : single_spaced (clean_text t) = true.
Proof.
  rewrite clean_text_unfold. unfold strip.
  apply single_spaced_rstrip, single_spaced_lstrip, single_spaced_collapse.
Qed.

(** C8.  The TextNormalizer is idempotent: cleaning a cleaned text changes
    nothing, for every input text. *)
Theorem clean_text_idempotent (x : str) :
  clean_text (clean_text x) = clean_text x.
Proof.
  rewrite (clean_text_unfold (clean_text x)).
  rewrite url_free_fixed by apply clean_text_url_free.
  rewrite single_spaced_fixed by apply clean_text_single_spaced.
  rewrite clean_text_unfold. apply strip_idem.
Qed.

(** ** [re.finditer] *)

Lemma last_seen_app prev a b :
  last_seen prev (a ++ b) = last_seen (last_seen prev a) b.
Proof. apply fold_left_app. Qed.

Lemma scan_skip {G} (p : pattern G) prev pos a b :
  scan p prev (length a) pos (a ++ b)
  = scan p (last_seen prev a) 0 (pos + length a) b.
Proof.
  revert prev pos. induction a as [|c a IH]; intros prev pos; simpl.
  - rewrite Nat.add_0_r. now destruct b.
  - rewrite IH. now rewrite Nat.add_succ_r.
Qed.

Lemma scan_match {G} (p : pattern G) prev pos a b g :
  a <> [] -> p prev (a ++ b) = Some (length a, g) ->
  scan p prev 0 pos (a ++ b)
  = mkMatch pos (pos + length a) g
    :: scan p (last_seen prev a) 0 (pos + length a) b.
Proof.
  destruct a as [|c a]; [easy|]. intros _ H. cbn [app length] in *.
  cbn [scan]. rewrite H, scan_skip. cbn [last_seen fold_left].
  now rewrite Nat.add_succ_r.
Qed.

Lemma scan_no_match {G} (p : pattern G) prev pos c r :
  p prev (c :: r) = None ->
  scan p prev 0 pos (c :: r) = scan p (Some c) 0 (S pos) r.
Proof. intros H. simpl. now rewrite H. Qed.

Lemma scan_groups {G} (p : pattern G) (Q : G -> Prop) :
  (forall prev t n g, p prev t = Some (n, g) -> Q g) ->
  forall t prev k pos, Forall Q (map m_group (scan p prev k pos t)).
Proof.
  intros Hp. induction t as [|c r IH]; intros prev k pos; simpl; [constructor|].
  destruct k as [|k]; [|apply IH].
  destruct (p prev (c :: r)) as [[[|n] g]|] eqn:E; try apply IH.
  simpl. constructor; [eapply Hp; eassumption | apply IH].
Qed.

(** ** TitleIndexer *)

Lemma span_app_stop p a b :
  forallb p a = true -> match b with c :: _ => p c = false | [] => True end ->
  span p (a ++ b) = length a.
Proof.
  intros Ha Hb. rewrite span_app_all by assumption.
  destruct b as [|c r]; simpl; [lia|]. rewrite Hb. lia.
Qed.

Lemma firstn_span_no_nl t : forallb not_nl (firstn (span not_nl t) t) = true.
Proof.
  induction t as [|c r IH]; simpl; [reflexivity|].
  destruct (not_nl c) eqn:E; simpl; [now rewrite E | reflexivity].
Qed.

Lemma head_space_skip_spaces t :
  head_space (firstn (span not_nl (skipn (span is_space t) t))
                     (skipn (span is_space t) t)) = false.
Proof.
  rewrite <- lstrip_skipn. pose proof (head_space_lstrip t) as H.
  destruct (lstrip t) as [|c r]; simpl in *; [reflexivity|].
  destruct (not_nl c); simpl; auto.
Qed.

(** What a match of the pattern captures. *)
Lemma toc_pattern_group prev t n title :
  toc_pattern prev t = Some (n, title) ->
  forallb not_nl title = true /\ head_space title = false.
Proof.
  unfold toc_pattern. cbv zeta.
  destruct (_ && _); [|discriminate]. intros [= <- <-]. split.
  - apply firstn_span_no_nl.
  - apply head_space_skip_spaces.
Qed.

(** The match on a marker, its separator and the text up to the end of the
    line. *)
Lemma toc_pattern_entry prev num sep title rest :
  at_line_start prev = true ->
  non_empty num = true -> forallb is_digit num = true ->
  non_empty sep = true -> forallb is_space sep = true ->
  forallb not_nl title = true -> head_space (title ++ rest) = false ->
  match rest with c :: _ => is_nl c = true | [] => True end ->
  toc_pattern prev (num ++ "." :: sep ++ title ++ rest)
  = Some (length (num ++ "." :: sep ++ title), title).
Proof.
  intros Hprev Hn Hd Hs Hw Ht Hh Hr. unfold toc_pattern. cbv zeta.
  rewrite span_app_stop by (assumption || reflexivity).
  rewrite skipn_app, Nat.sub_diag, skipn_all. cbn [app skipn tl].
  rewrite span_app_stop; [| assumption |].
  2:{ destruct (title ++ rest); [exact I | exact Hh]. }
  rewrite skipn_app, Nat.sub_diag, skipn_all. cbn [app skipn].
  rewrite span_app_stop; [| assumption |].
  2:{ destruct rest; [exact I|]. unfold not_nl. now rewrite Hr. }
  rewrite firstn_app, Nat.sub_diag, firstn_all. cbn [firstn]. rewrite app_nil_r.
  rewrite Hprev. destruct num; [discriminate|]. destruct sep; [discriminate|].
  cbn [length Nat.ltb Nat.leb andb starts_with Ascii.eqb Bool.eqb].
  do 2 f_equal. rewrite !length_app. cbn [length]. rewrite length_app. cbn [length]. lia.
Qed.

Lemma re_split_cons sep c r :
  re_split sep (c :: r) =
  if sep c then [] :: re_split sep r
  else (c :: hd [] (re_split sep r)) :: tl (re_split sep r).
Proof.
  simpl. destruct (sep c); [reflexivity|].
  assert (H : re_split sep r <> []).
  { destruct r as [|d r]; simpl; [easy|].
    destruct (sep d); [easy|]. now destruct (re_split sep r). }
  destruct (re_split sep r); [easy | reflexivity].
Qed.

Lemma dot_after_digits_first_line t :
  dot_after_digits (hd [] (lines t)) = dot_after_digits t.
Proof.
  unfold lines. induction t as [|c r IH]; [reflexivity|].
  rewrite re_split_cons. destruct (is_nl c) eqn:E.
  - apply is_nl_true in E as ->. reflexivity.
  - unfold dot_after_digits in *. simpl. destruct (is_digit c); [exact IH|].
    reflexivity.
Qed.

Lemma numbered_first_line t : numbered (hd [] (lines t)) = numbered t.
Proof.
  unfold numbered. rewrite dot_after_digits_first_line. f_equal.
  unfold lines. destruct t as [|c r]; [reflexivity|].
  rewrite re_split_cons. destruct (is_nl c) eqn:E.
  - apply is_nl_true in E as ->. reflexivity.
  - simpl. now destruct (is_digit c).
Qed.

Lemma toc_pattern_numbered prev t x :
  toc_pattern prev t = Some x ->
  at_line_start prev = true /\ numbered t = true.
Proof.
  unfold toc_pattern, numbered, dot_after_digits. cbv zeta.
  destruct (at_line_start prev); [|discriminate].
  destruct (0 <? span is_digit t); [|discriminate].
  destruct (starts_with _ _); [|discriminate]. auto.
Qed.

(** Where no line begins with an integer and a dot, nothing is found; off
    the start of a line the rest of the current line does not count. *)
Lemma scan_unnumbered t : forall prev pos,
  forallb unnumbered
    (if at_line_start prev then lines t else tl (lines t)) = true ->
  scan toc_pattern prev 0 pos t = [].
Proof.
  induction t as [|c r IH]; intros prev pos H; [reflexivity|].
  assert (Hno : toc_pattern prev (c :: r) = None).
  { destruct (toc_pattern prev (c :: r)) as [x|] eqn:E; [|reflexivity].
    apply toc_pattern_numbered in E as [Hp Hn]. rewrite Hp in H.
    rewrite <- numbered_first_line in Hn.
    destruct (lines (c :: r)) as [|l ls]; [discriminate|].
    simpl in H, Hn. unfold unnumbered in H at 1. now rewrite Hn in H. }
  rewrite scan_no_match by assumption. apply IH.
  unfold lines in *. rewrite re_split_cons in H. simpl at_line_start.
  destruct (is_nl c).
  - destruct (at_line_start prev); simpl in H; exact H.
  - destruct (at_line_start prev); simpl in H; [|exact H].
    now apply andb_prop in H as [_ H].
Qed.

Lemma last_seen_mid_line x t :
  forallb not_nl t = true -> at_line_start x = false ->
  at_line_start (last_seen x t) = false.
Proof.
  revert x. induction t as [|c r IH]; intros x Ht Hx; [exact Hx|].
  simpl in Ht. apply andb_prop in Ht as [Hc Hr]. apply IH; [exact Hr|].
  simpl. unfold not_nl in Hc. now apply negb_true_iff.
Qed.

Lemma toc_pattern_mid_line prev t :
  at_line_start prev = false -> toc_pattern prev t = None.
Proof. unfold toc_pattern. now intros ->. Qed.

Lemma starts_non_space_head t rest :
  starts_non_space t = true -> head_space (t ++ rest) = false.
Proof. destruct t; simpl; [discriminate|]. apply negb_true_iff. Qed.

(** One well-formed line of the table of contents yields its title, and
    the search goes on at the start of the next line. *)
Lemma scan_entry e rest prev pos :
  at_line_start prev = true -> well_formed e = true ->
  map m_group (scan toc_pattern prev 0 pos (render e ++ rest))
  = entry_title e
    :: map m_group
         (scan toc_pattern (Some NL) 0 (pos + length (render e)) rest).
Proof.
  intros Hprev Hwf. unfold well_formed in Hwf.
  repeat (apply andb_prop in Hwf as [Hwf ?]).
  destruct e as [num sep title]. simpl in *. unfold render. simpl.
  replace ((num ++ "." :: sep ++ title ++ [NL]) ++ rest)
    with ((num ++ "." :: sep ++ title) ++ NL :: rest)
    by (repeat (rewrite <- app_assoc; simpl); reflexivity).
  rewrite scan_match with (g := title).
  - cbn [map m_group]. f_equal. rewrite scan_no_match.
    + f_equal. f_equal. rewrite !length_app. simpl. rewrite !length_app.
      simpl. lia.
    + apply toc_pattern_mid_line. rewrite last_seen_app. simpl.
      rewrite last_seen_app. destruct title as [|c title]; [discriminate|].
      simpl in *. apply last_seen_mid_line; [now apply andb_prop in H as [_ H]|].
      simpl. apply andb_prop in H as [H _]. now apply negb_true_iff.
  - now destruct num.
  - rewrite <- app_assoc. simpl. rewrite <- app_assoc.
    apply toc_pattern_entry; try assumption; [|reflexivity].
    now apply starts_non_space_head.
Qed.

Lemma scan_toc es body : forall prev pos,
  at_line_start prev = true ->
  forallb well_formed es = true -> forallb unnumbered (lines body) = true ->
  map m_group (scan toc_pattern prev 0 pos (render_toc es ++ body))
  = map entry_title es.
Proof.
  induction es as [|e es IH]; intros prev pos Hprev Hwf Hbody.
  - simpl. rewrite scan_unnumbered; [reflexivity | now rewrite Hprev].
  - simpl in Hwf. apply andb_prop in Hwf as [He Hes].
    change (render_toc (e :: es)) with (render e ++ render_toc es).
    rewrite <- app_assoc, scan_entry by assumption.
    cbn [map]. f_equal. now apply IH.
Qed.

Lemma toc_pattern_marked prev t x :
  toc_pattern prev t = Some x -> marked t = true.
Proof.
  unfold toc_pattern, marked. cbv zeta.
  destruct (at_line_start prev); [|discriminate].
  destruct (0 <? span is_digit t); [|discriminate].
  destruct (skipn (span is_digit t) t) as [|d [|c r]];
    cbn [starts_with tl span andb].
  - discriminate.
  - rewrite andb_false_r. discriminate.
  - rewrite (Ascii.eqb_sym "." d), andb_true_r.
    destruct (Ascii.eqb d "."); [|discriminate].
    destruct (is_space c); [reflexivity | discriminate].
Qed.

(** Whether a line starts an entry does not depend on what follows its
    newline. *)
Lemma marked_line line rest :
  marked (line ++ NL :: rest) = marked (line ++ [NL]).
Proof.
  unfold marked.
  assert (Hspan : forall r, span is_digit (line ++ NL :: r)
                            = span is_digit line).
  { intros r. induction line as [|c l IH]; [reflexivity|].
    cbn [app span]. destruct (is_digit c); [now rewrite IH | reflexivity]. }
  rewrite !Hspan. f_equal.
  assert (Hle : span is_digit line <= length line).
  { clear. induction line as [|c l IH]; simpl; [lia|].
    destruct (is_digit c); simpl; lia. }
  rewrite !skipn_app.
  replace (span is_digit line - length line) with 0 by lia. cbn [skipn].
  destruct (skipn (span is_digit line) line) as [|d [|c r]];
    [destruct rest | |]; reflexivity.
Qed.

(** Off the start of a line nothing is found before the next newline. *)
Lemma scan_mid_line line : forall prev pos rest,
  forallb not_nl line = true -> at_line_start prev = false ->
  scan toc_pattern prev 0 pos (line ++ NL :: rest)
  = scan toc_pattern (Some NL) 0 (pos + S (length line)) rest.
Proof.
  induction line as [|c line IH]; intros prev pos rest Hl Hp.
  - cbn [app length]. rewrite scan_no_match by now apply toc_pattern_mid_line.
    now rewrite Nat.add_1_r.
  - cbn [app length]. simpl in Hl. apply andb_prop in Hl as [Hc Hl].
    rewrite scan_no_match by now apply toc_pattern_mid_line.
    rewrite IH; [f_equal; lia | exact Hl |].
    simpl. unfold not_nl in Hc. now apply negb_true_iff.
Qed.

Lemma scan_mid_line_end line : forall prev pos,
  forallb not_nl line = true -> at_line_start prev = false ->
  scan toc_pattern prev 0 pos line = [].
Proof.
  induction line as [|c line IH]; intros prev pos Hl Hp; [reflexivity|].
  simpl in Hl. apply andb_prop in Hl as [Hc Hl].
  rewrite scan_no_match by now apply toc_pattern_mid_line.
  apply IH; [exact Hl|]. simpl. unfold not_nl in Hc. now apply negb_true_iff.
Qed.

Lemma toc_pattern_unmarked prev t : marked t = false -> toc_pattern prev t = None.
Proof.
  intros H. destruct (toc_pattern prev t) as [x|] eqn:E; [|reflexivity].
  apply toc_pattern_marked in E. congruence.
Qed.

(** A line that starts no entry is passed over, and the search goes on at
    the start of the next line. *)
Lemma scan_plain_line line rest prev pos :
  plain line = true ->
  scan toc_pattern prev 0 pos (line ++ NL :: rest)
  = scan toc_pattern (Some NL) 0 (pos + S (length line)) rest.
Proof.
  unfold plain. intros H. apply andb_prop in H as [Hl Hm].
  apply negb_true_iff in Hm. rewrite <- (marked_line line rest) in Hm.
  destruct line as [|c line].
  - cbn [app length] in *. rewrite scan_no_match by now apply toc_pattern_unmarked.
    now rewrite Nat.add_1_r.
  - cbn [app length] in *. rewrite scan_no_match by now apply toc_pattern_unmarked.
    simpl in Hl. apply andb_prop in Hl as [Hc Hl].
    rewrite scan_mid_line; [f_equal; lia | exact Hl |].
    simpl. unfold not_nl in Hc. now apply negb_true_iff.
Qed.

Lemma scan_plain_end last prev pos :
  plain_end last = true -> scan toc_pattern prev 0 pos last = [].
Proof.
  unfold plain_end. intros H. apply andb_prop in H as [Hl Hm].
  apply negb_true_iff in Hm. destruct last as [|c last]; [reflexivity|].
  rewrite scan_no_match by now apply toc_pattern_unmarked.
  simpl in Hl. apply andb_prop in Hl as [Hc Hl].
  apply scan_mid_line_end; [exact Hl|].
  simpl. unfold not_nl in Hc. now apply negb_true_iff.
Qed.

(** An entry that the end of the text closes yields its title. *)
Lemma scan_last_entry e prev pos :
  at_line_start prev = true -> well_formed_last e = true ->
  map m_group (scan toc_pattern prev 0 pos (render_last e)) = [entry_title e].
Proof.
  intros Hprev Hwf. unfold well_formed_last in Hwf.
  repeat (apply andb_prop in Hwf as [Hwf ?]).
  destruct e as [num sep title]. unfold render_last. simpl in *.
  apply negb_true_iff in H0.
  pose proof (toc_pattern_entry prev num sep title [] Hprev Hwf H3 H2 H1 H) as Hm.
  rewrite !app_nil_r in Hm. specialize (Hm H0 I).
  rewrite <- (app_nil_r (num ++ "." :: sep ++ title)).
  rewrite scan_match with (g := title).
  - reflexivity.
  - now destruct num.
  - now rewrite app_nil_r.
Qed.

(** The lines of a text, taken one after the other. *)
Lemma scan_lines ls tail : forall prev pos,
  at_line_start prev = true -> forallb line_ok ls = true ->
  exists prev' pos',
    at_line_start prev' = true
    /\ map m_group (scan toc_pattern prev 0 pos (render_lines ls ++ tail))
       = titles_of ls ++ map m_group (scan toc_pattern prev' 0 pos' tail).
Proof.
  induction ls as [|l ls IH]; intros prev pos Hprev Hok.
  - exists prev, pos. now split.
  - simpl in Hok. apply andb_prop in Hok as [Hl Hls].
    change (render_lines (l :: ls)) with (render_line l ++ render_lines ls).
    rewrite <- app_assoc. destruct l as [e|line]; cbn [render_line line_ok] in *.
    + rewrite scan_entry by assumption.
      destruct (IH (Some NL) (pos + length (render e)) eq_refl Hls)
        as [prev' [pos' [Hp' Heq]]].
      exists prev', pos'. split; [exact Hp'|]. cbn [titles_of flat_map app].
      now rewrite Heq.
    + rewrite <- app_assoc. cbn [app]. rewrite scan_plain_line by assumption.
      destruct (IH (Some NL) (pos + S (length line)) eq_refl Hls)
        as [prev' [pos' [Hp' Heq]]].
      exists prev', pos'. split; [exact Hp'|]. exact Heq.
Qed.

Lemma first_line_split (t : str) :
  exists l rest,
    t = l ++ rest /\ forallb not_nl l = true
    /\ (rest = [] \/ exists rest', rest = NL :: rest').
Proof.
  induction t as [|c r [l [rest [Ht [Hl Hrest]]]]].
  - exists [], []. auto.
  - destruct (is_nl c) eqn:E.
    + apply is_nl_true in E as ->. exists [], (NL :: r). eauto.
    + exists (c :: l), rest. subst r. split; [reflexivity|]. split; [|exact Hrest].
      simpl. unfold not_nl. now rewrite E.
Qed.

Lemma span_split p (t : str) :
  t = firstn (span p t) t ++ skipn (span p t) t
  /\ forallb p (firstn (span p t) t) = true
  /\ match skipn (span p t) t with c :: _ => p c = false | [] => True end.
Proof.
  induction t as [|c r [IH1 [IH2 IH3]]]; [now split|].
  simpl. destruct (p c) eqn:E; simpl.
  - rewrite E. split; [now f_equal|]. now split.
  - now split.
Qed.

(** A text that begins with a marker is a number, a dot, the whitespace
    after it in full, and a rest that does not begin with whitespace. *)
Lemma marked_split t :
  marked t = true ->
  exists num sep rest,
    t = num ++ "." :: sep ++ rest
    /\ non_empty num = true /\ forallb is_digit num = true
    /\ non_empty sep = true /\ forallb is_space sep = true
    /\ head_space rest = false.
Proof.
  unfold marked. intros H. apply andb_prop in H as [Hd H].
  destruct (span_split is_digit t) as [Ht [Hnum _]].
  destruct (skipn (span is_digit t) t) as [|d [|c r]] eqn:E; try discriminate.
  apply andb_prop in H as [Hdot Hc]. apply Ascii.eqb_eq in Hdot. subst d.
  destruct (span_split is_space (c :: r)) as [Hr [Hsep Hrest]].
  exists (firstn (span is_digit t) t), (firstn (span is_space (c :: r)) (c :: r)),
    (skipn (span is_space (c :: r)) (c :: r)).
  split; [|split; [|split; [exact Hnum|split; [|split; [exact Hsep|]]]]].
  - now rewrite <- Hr.
  - apply Nat.ltb_lt in Hd. destruct t; simpl in *; [lia|].
    destruct (is_digit a); simpl in *; [reflexivity | lia].
  - simpl. now rewrite Hc.
  - destruct (skipn _ (c :: r)); [reflexivity | exact Hrest].
Qed.

(** Every text is a sequence of entries and other lines, ended by a rest
    that starts no entry or by an entry that the end of the text closes. *)
Lemma toc_lines_cover content :
  exists ls,
    forallb line_ok ls = true
    /\ ((exists last,
           plain_end last = true /\ content = render_lines ls ++ last)
        \/ (exists e,
              well_formed_last e = true
              /\ content = render_lines ls ++ render_last e)).
Proof.
  remember (length content) as n eqn:Hn.
  assert (Hle : length content <= n) by lia. clear Hn. revert content Hle.
  induction n as [|n IH]; intros content Hle.
  { destruct content; [|simpl in Hle; lia]. exists []. split; [reflexivity|].
    left. exists []. now split. }
  destruct (marked content) eqn:Hm.
  - apply marked_split in Hm
      as [num [sep [rest [-> [Hn1 [Hn2 [Hs1 [Hs2 Hrest]]]]]]]].
    destruct (first_line_split rest) as [title [rest2 [-> [Ht [->|[rest3 ->]]]]]].
    + exists []. split; [reflexivity|]. right.
      rewrite app_nil_r in *.
      exists (mkTocEntry num sep title). split; [|reflexivity].
      unfold well_formed_last. simpl.
      now rewrite Hn1, Hn2, Hs1, Hs2, Hrest, Ht.
    + assert (Hlen : length rest3 <= n).
      { rewrite length_app in Hle. cbn [length] in Hle.
        rewrite !length_app in Hle. cbn [length] in Hle. lia. }
      destruct (IH rest3 Hlen) as [ls [Hok Hcase]].
      set (e := mkTocEntry num sep title).
      assert (He : well_formed e = true).
      { unfold well_formed. simpl. rewrite Hn1, Hn2, Hs1, Hs2, Ht.
        destruct title as [|c title]; [discriminate Hrest|].
        simpl in *. now rewrite Hrest. }
      assert (Heq : forall x, num ++ "." :: sep ++ title ++ NL :: x
                              = render e ++ x).
      { intros x. unfold render, e. simpl.
        repeat (rewrite <- app_assoc; simpl). reflexivity. }
      exists (Entry e :: ls). split; [simpl; now rewrite He|].
      change (render_lines (Entry e :: ls)) with (render e ++ render_lines ls).
      destruct Hcase as [[last [Hl ->]]|[e' [He' ->]]].
      * left. exists last. split; [exact Hl|].
        rewrite <- app_assoc. apply Heq.
      * right. exists e'. split; [exact He'|].
        rewrite <- app_assoc. apply Heq.
  - destruct (first_line_split content)
      as [l [rest2 [-> [Hl [->|[rest3 ->]]]]]].
    + exists []. split; [reflexivity|]. left. exists l.
      rewrite app_nil_r in *. unfold plain_end. now rewrite Hl, Hm.
    + assert (Hlen : length rest3 <= n).
      { rewrite length_app in Hle. cbn [length] in Hle. lia. }
      destruct (IH rest3 Hlen) as [ls [Hok Hcase]].
      exists (Other l :: ls). split.
      { simpl. unfold plain. rewrite Hl, Hok, <- (marked_line l rest3), Hm.
        reflexivity. }
      change (render_lines (Other l :: ls))
        with ((l ++ [NL]) ++ render_lines ls).
      destruct Hcase as [[last [Hlast ->]]|[e' [He' ->]]].
      * left. exists last. split; [exact Hlast|].
        now rewrite <- !app_assoc.
      * right. exists e'. split; [exact He'|].
        now rewrite <- !app_assoc.
Qed.

(** What the search finds from a position on depends on what precedes
    it only through whether a line starts there. *)
Lemma scan_from_line_start t : forall prev prev' k pos pos',
  (k = 0 -> at_line_start prev = at_line_start prev') ->
  map m_group (scan toc_pattern prev k pos t)
  = map m_group (scan toc_pattern prev' k pos' t).
Proof.
  induction t as [|c r IH]; intros prev prev' k pos pos' H; [reflexivity|].
  cbn [scan]. destruct k as [|k]; [|now apply IH].
  assert (Hp : toc_pattern prev (c :: r) = toc_pattern prev' (c :: r))
    by (unfold toc_pattern; now rewrite H).
  rewrite Hp. destruct (toc_pattern prev' (c :: r)) as [[[|n] g]|].
  - now apply IH.
  - cbn [map m_group]. f_equal. now apply IH.
  - now apply IH.
Qed.

(** C9 (amended).  The TitleIndexer returns the captured texts in document
    order with duplicates retained.  A text is read line by line: an entry
    is an integer, a dot, whitespace and a title that starts with a
    character other than whitespace; any other line, given that it does
    not begin with an integer, a dot and whitespace, is passed over,
    wherever it stands.  Lines at the head of a text yield the titles of
    the entries among them, one per entry and unchanged, whitespace at
    their end included, followed by what the rest of the text yields.  A
    rest that starts no entry yields nothing, and a rest that is an entry
    closed by the end of the text yields its title.  Every text is made of
    such lines and such a rest, so the output is fixed for every input.
    Empty input, and input in which no line begins with an integer and a
    dot, yield the empty sequence.  No captured title begins with
    whitespace or contains a newline. *)
Theorem extract_titles_from_toc_spec :
  extract_titles_from_toc [] = []
  /\ (forall content,
        forallb unnumbered (lines content) = true ->
        extract_titles_from_toc content = [])
  /\ (forall ls rest,
        forallb line_ok ls = true ->
        extract_titles_from_toc (render_lines ls ++ rest)
        = titles_of ls ++ extract_titles_from_toc rest)
  /\ (forall last,
        plain_end last = true -> extract_titles_from_toc last = [])
  /\ (forall e,
        well_formed_last e = true ->
        extract_titles_from_toc (render_last e) = [entry_title e])
  /\ (forall content,
        exists ls,
          forallb line_ok ls = true
          /\ ((exists last,
                 plain_end last = true /\ content = render_lines ls ++ last)
              \/ (exists e,
                    well_formed_last e = true
                    /\ content = render_lines ls ++ render_last e)))
  /\ (forall content title,
        In title (extract_titles_from_toc content) ->
        head_space title = false /\ forallb not_nl title = true).
Proof.
  unfold extract_titles_from_toc, findall, finditer.
  split; [reflexivity|]. split; [|split; [|split; [|split; [|split]]]].
  - intros content H. now rewrite scan_unnumbered.
  - intros ls rest Hls.
    destruct (scan_lines ls rest None 0 eq_refl Hls)
      as [prev [pos [Hprev ->]]].
    f_equal. apply scan_from_line_start. now intros _.
  - intros last Hlast. now rewrite scan_plain_end.
  - intros e He. now apply scan_last_entry.
  - apply toc_lines_cover.
  - intros content title Hin.
    revert title Hin. apply Forall_forall, scan_groups.
    intros prev t n g Hg. apply toc_pattern_group in Hg. tauto.
Qed.

Lemma extract_titles_from_toc_spec_witness :
  let ls := [Other (txt "Contents");
             Entry (mkTocEntry (txt "1") (txt " ") (txt "Climate Risk "));
             Other (txt "1.5 degrees of warming");
             Entry (mkTocEntry (txt "2") (txt "  ") (txt "Flood Policy"));
             Other (txt "3.Drought");
             Entry (mkTocEntry (txt "10") (txt " ") (txt "Climate Risk "))] in
  let e := mkTocEntry (txt "11") [NL] (txt "Index") in
  forallb line_ok ls = true
  /\ plain_end (txt "12.") = true
  /\ well_formed_last e = true
  /\ extract_titles_from_toc (render_lines ls ++ txt "12.")
     = [txt "Climate Risk "; txt "Flood Policy"; txt "Climate Risk "]
  /\ extract_titles_from_toc (render_lines ls ++ render_last e)
     = [txt "Climate Risk "; txt "Flood Policy"; txt "Climate Risk ";
        txt "Index"].
Proof.
  intros ls e.
  destruct extract_titles_from_toc_spec
    as [_ [_ [Hlines [Hlast [Hentry _]]]]].
  split; [reflexivity|]. split; [reflexivity|].
  split; [reflexivity|]. split.
  - rewrite (Hlines ls (txt "12.") eq_refl), (Hlast (txt "12.") eq_refl).
    reflexivity.
  - rewrite (Hlines ls (render_last e) eq_refl), (Hentry e eq_refl).
    reflexivity.
Defined.

(** C9, as stated, fails: the match does not trim the end of the captured
    title.  For the line "1. A " the title keeps its final space. *)
Lemma extract_titles_from_toc_keeps_trailing_space :
  ~ (forall content title,
       In title (extract_titles_from_toc content) -> strip title = title).
Proof.
  intros H. specialize (H (txt "1. A " ++ [NL]) (txt "A ")).
  assert (Hin : In (txt "A ") (extract_titles_from_toc (txt "1. A " ++ [NL])))
    by (left; reflexivity).
  apply H in Hin. discriminate Hin.
Qed.

(** C10.  The separator after the numeric marker is not confined to the
    marker's line: a marker alone on its line takes the text of the next
    line as its title, and a marker followed only by whitespace up to the
    end of the input yields the empty title. *)
Theorem toc_separator_spans_lines (num title sep : str) :
  non_empty num = true -> forallb is_digit num = true ->
  starts_non_space title = true -> forallb not_nl title = true ->
  non_empty sep = true -> forallb is_space sep = true ->
  extract_titles_from_toc (num ++ "." :: NL :: title ++ [NL]) = [title]
  /\ extract_titles_from_toc (num ++ "." :: sep) = [[]].
Proof.
  intros Hn Hd Ht Hl Hs Hw. split.
  - pose proof (scan_toc [mkTocEntry num [NL] title] [] None 0 eq_refl) as H.
    unfold render_toc, render in H. simpl in H. rewrite !app_nil_r in H.
    apply H; [|reflexivity]. unfold well_formed. simpl.
    now rewrite Hn, Hd, Ht, Hl.
  - unfold extract_titles_from_toc, findall, finditer.
    pose proof (toc_pattern_entry None num sep [] [] eq_refl Hn Hd Hs Hw
                  eq_refl eq_refl I) as H.
    simpl in H. rewrite app_nil_r in H.
    replace (num ++ "." :: sep) with ((num ++ "." :: sep) ++ []) at 1
      by apply app_nil_r.
    rewrite scan_match with (g := @nil ascii).
    + reflexivity.
    + now destruct num.
    + now rewrite app_nil_r.
Qed.

Lemma toc_separator_spans_lines_witness :
  extract_titles_from_toc (txt "1." ++ NL :: txt "Foo" ++ [NL]) = [txt "Foo"]
  /\ extract_titles_from_toc (txt "1. ") = [[]].
Proof.
  exact (toc_separator_spans_lines (txt "1") (txt "Foo") (txt " ")
           eq_refl eq_refl eq_refl eq_refl eq_refl eq_refl).
Defined.

(** ** ConcurrentDispatcher and IncrementalSink *)

Section DispatcherProperties.

Variable summarizer : str -> result str.
Variable to_csv_error : list Row -> Row -> option exn.

(** The loop body never raises: whatever the future holds and whatever
    the sink does, it ends in the world [after_one]. *)
Lemma drain_one_eq future w :
  drain_one to_csv_error future w = (after_one to_csv_error w future, Ok tt).
Proof.
  unfold drain_one, try_except, future_result, save_to_csv_incremental,
    to_csv_append, after_one. cbn.
  destruct future as [res|e]; cbn; [|reflexivity].
  destruct (to_csv_error (csv w) (row_data res)); reflexivity.
Qed.

Lemma drain_eq fs deadline_hit w :
  drain to_csv_error (completions_of fs deadline_hit) w
  = (after_all to_csv_error fs w,
     if deadline_hit then Raise (FuturesTimeoutError (txt "futures unfinished"))
     else Ok tt).
Proof.
  revert w. induction fs as [|f fs IH]; intros w.
  - simpl. now destruct deadline_hit.
  - cbn [completions_of fold_right drain]. fold (completions_of fs deadline_hit).
    cbn [bind Monad_M]. rewrite drain_one_eq. apply IH.
Qed.

Lemma as_completed_yielded futures order deadline_hit :
  as_completed futures order deadline_hit
  = completions_of (yielded futures order) deadline_hit.
Proof.
  induction order as [|i order IH]; [reflexivity|]. simpl.
  destruct (nth_error futures i); simpl; now rewrite IH.
Qed.

Lemma run_eq texts sch w :
  parallel_process_texts_in_threads summarizer to_csv_error texts sch w
  = let w' := after_all to_csv_error
                (yielded (map (submit summarizer) texts) (order sch)) w in
    (if deadline_hit sch then add_log timeout_warning w' else w', Ok tt).
Proof.
  unfold parallel_process_texts_in_threads, try_except.
  rewrite as_completed_yielded, drain_eq.
  destruct (deadline_hit sch); reflexivity.
Qed.

Lemma after_one_eq w f :
  after_one to_csv_error w f
  = mkWorld (csv w ++ rows_of_one to_csv_error w f)
            (log w ++ [record_of_one to_csv_error w f]).
Proof.
  unfold after_one, rows_of_one, record_of_one, add_log, add_row.
  destruct f as [res|e]; [destruct (to_csv_error _ _)|]; simpl;
    now rewrite ?app_nil_r.
Qed.

Lemma after_all_eq fs w :
  after_all to_csv_error fs w
  = mkWorld (csv w ++ new_rows to_csv_error fs w)
            (log w ++ new_log to_csv_error fs w).
Proof.
  revert w. induction fs as [|f fs IH]; intros w.
  - simpl. rewrite !app_nil_r. now destruct w.
  - change (after_all to_csv_error (f :: fs) w)
      with (after_all to_csv_error fs (after_one to_csv_error w f)).
    rewrite IH. rewrite after_one_eq at 1 3. simpl.
    now rewrite <- !app_assoc.
Qed.

Lemma skipn_length_app {A} (a b : list A) : skipn (length a) (a ++ b) = b.
Proof. induction a; simpl; auto. Qed.

Lemma new_rows_length fs w :
  length (new_rows to_csv_error fs w) <= length (filter is_ok fs).
Proof.
  revert w. induction fs as [|f fs IH]; intros w; simpl; [lia|].
  rewrite length_app. specialize (IH (after_one to_csv_error w f)).
  unfold rows_of_one. destruct f as [res|e]; cbn [is_ok length]; [|lia].
  destruct (to_csv_error _ _); cbn [length]; lia.
Qed.

Lemma new_rows_from fs w :
  Forall (fun row => exists res, In (Ok res) fs /\ row = row_data res)
         (new_rows to_csv_error fs w).
Proof.
  revert w. induction fs as [|f fs IH]; intros w; simpl; [constructor|].
  apply Forall_app. split.
  - unfold rows_of_one. destruct f as [res|e]; [|constructor].
    destruct (to_csv_error _ _); constructor; [|constructor].
    exists res. auto.
  - eapply Forall_impl; [|apply IH]. intros row [res [Hin ->]]. eauto.
Qed.


Lemma new_log_no_timeout fs w :
  count_occ LogRecord_eq_dec (new_log to_csv_error fs w) timeout_warning = 0.
Proof.
  revert w. induction fs as [|f fs IH]; intros w; [reflexivity|].
  cbn [new_log]. rewrite count_occ_cons_neq; [apply IH|].
  unfold record_of_one.
  destruct f as [res|e]; [destruct (to_csv_error _ _)|]; discriminate.
Qed.

End DispatcherProperties.

Lemma filter_length_le {A} (p : A -> bool) l :
  length (filter p l) <= length l.
Proof. induction l as [|x l IH]; simpl; [lia|]. destruct (p x); simpl; lia. Qed.


Lemma yielded_length futures order :
  length (yielded futures order) <= length order.
Proof.
  induction order as [|i order IH]; simpl; [lia|].
  rewrite length_app. destruct (nth_error futures i); simpl; lia.
Qed.


Lemma In_yielded futures order f :
  In f (yielded futures order) ->
  exists i, In i order /\ nth_error futures i = Some f.
Proof.
  unfold yielded. intros H. apply in_flat_map in H as [i [Hi Hf]].
  exists i. destruct (nth_error futures i); [|easy].
  destruct Hf as [->|[]]. auto.
Qed.

Lemma distinct_NoDup l : distinct l = true -> NoDup l.
Proof.
  induction l as [|i l IH]; simpl; [constructor|]. intros H.
  apply andb_prop in H as [Hi Hl]. constructor; [|now apply IH].
  intros Hin. apply negb_true_iff in Hi.
  assert (existsb (Nat.eqb i) l = true); [|congruence].
  apply existsb_exists. exists i. split; [exact Hin | apply Nat.eqb_refl].
Qed.


Lemma valid_schedule_length n sch :
  valid_schedule n sch = true ->
  length (order sch) <= n
  /\ (deadline_hit sch = true -> length (order sch) < n).
Proof.
  unfold valid_schedule. intros H.
  apply andb_prop in H as [_ Hlen]. destruct (deadline_hit sch).
  - apply Nat.ltb_lt in Hlen. split; [lia | auto].
  - apply Nat.eqb_eq in Hlen. split; [lia | discriminate].
Qed.

Section Batch.

Variable summarizer : str -> result str.
Variable to_csv_error : list Row -> Row -> option exn.

(** A batch always returns normally, and its world is the one left by
    handling the yielded futures, plus the time-out warning if the deadline
    was hit. *)
Lemma batch_world texts sch w :
  fst (parallel_process_texts_in_threads summarizer to_csv_error texts sch w)
  = let w' := after_all to_csv_error
                (yielded (map (submit summarizer) texts) (order sch)) w in
    if deadline_hit sch then add_log timeout_warning w' else w'.
Proof. now rewrite run_eq. Qed.

Lemma batch_rows texts sch w :
  rows_appended w
    (fst (parallel_process_texts_in_threads summarizer to_csv_error
            texts sch w))
  = new_rows to_csv_error
      (yielded (map (submit summarizer) texts) (order sch)) w.
Proof.
  rewrite batch_world. cbv zeta. unfold rows_appended.
  destruct (deadline_hit sch); rewrite after_all_eq; simpl;
    apply skipn_length_app.
Qed.


(** C7.  When the deadline is hit the loop stops: the world is the one
    left by the futures yielded before it, plus one time-out warning, which
    is the last record logged and the only one of its kind; every row
    appended comes from a job that completed before the deadline, so the
    rows are fewer than the sections; and the batch returns normally. *)
Theorem deadline_stops_collection texts sch w :
  valid_schedule (length texts) sch = true -> deadline_hit sch = true ->
  let futures := map (submit summarizer) texts in
  let done := parallel_process_texts_in_threads summarizer to_csv_error
                texts sch w in
  done = (add_log timeout_warning
            (after_all to_csv_error (yielded futures (order sch)) w), Ok tt)
  /\ count_occ LogRecord_eq_dec (log_written w (fst done)) timeout_warning = 1
  /\ Forall (fun row => exists i res,
               In i (order sch) /\ nth_error futures i = Some (Ok res)
               /\ row = row_data res)
            (rows_appended w (fst done))
  /\ length (rows_appended w (fst done)) <= length (order sch)
  /\ length (order sch) < length texts.
Proof.
  intros Hvalid Hd futures done. subst done.
  pose proof (valid_schedule_length _ _ Hvalid) as [_ Hlt].
  rewrite batch_rows. fold futures. rewrite run_eq, Hd. cbv zeta. fold futures.
  split; [reflexivity|]. split; [|split; [|split]].
  - unfold log_written. rewrite after_all_eq. simpl.
    rewrite <- app_assoc, skipn_length_app, count_occ_app.
    rewrite new_log_no_timeout. simpl.
    now destruct (LogRecord_eq_dec timeout_warning timeout_warning).
  - eapply Forall_impl; [|apply new_rows_from].
    intros row [res [Hin ->]]. apply In_yielded in Hin as [i [Hi Hf]].
    exists i, res. auto.
  - pose proof (new_rows_length to_csv_error (yielded futures (order sch)) w).
    pose proof (filter_length_le is_ok (yielded futures (order sch))).
    pose proof (yielded_length futures (order sch)). lia.
  - auto.
Qed.

(** Rows do not depend on what was logged. *)
Lemma drain_csv rest : forall w1 w2,
  csv w1 = csv w2 ->
  csv (fst (drain to_csv_error rest w1)) = csv (fst (drain to_csv_error rest w2))
  /\ snd (drain to_csv_error rest w1) = snd (drain to_csv_error rest w2).
Proof.
  induction rest as [| |f rest IH]; intros w1 w2 H; [simpl; auto ..|].
  cbn [drain bind Monad_M]. rewrite !drain_one_eq. apply IH.
  rewrite !after_one_eq. simpl. unfold rows_of_one. now rewrite H.
Qed.

(** C2 (amended).  A failure of the sink's append is caught by the handler
    of the loop body like any failure of the job: a warning with the text
    of the exception is logged, no row is added, the loop goes on with the
    next completion, and the batch returns normally. *)
Theorem sink_failure_logged_and_skipped res e rest w :
  to_csv_error (csv w) (row_data res) = Some e ->
  drain to_csv_error (Yield (Ok res) rest) w
  = drain to_csv_error rest (add_log (error_warning e) w)
  /\ csv (fst (drain to_csv_error (Yield (Ok res) rest) w))
     = csv (fst (drain to_csv_error rest w))
  /\ forall texts sch w0,
       snd (parallel_process_texts_in_threads summarizer to_csv_error
              texts sch w0) = Ok tt.
Proof.
  intros He.
  assert (Hstep : drain to_csv_error (Yield (Ok res) rest) w
                  = drain to_csv_error rest (add_log (error_warning e) w)).
  { cbn [drain bind Monad_M]. rewrite drain_one_eq. unfold after_one.
    now rewrite He. }
  split; [exact Hstep|]. split.
  - rewrite Hstep. now apply drain_csv.
  - intros texts sch w0. now rewrite run_eq.
Qed.

(** C6 (amended).  When a job raises, the loop body logs one warning made
    of a fixed prefix and the text of the exception, and nothing of the
    section; it adds no row and the loop goes on: the rows of the other
    jobs are those of a batch without the failed job, and the batch returns
    normally. *)
Theorem job_failure_logged_and_skipped e rest w :
  drain to_csv_error (Yield (Raise e) rest) w
  = drain to_csv_error rest
      (add_log (WARNING, txt "Error processing text: " ++ exn_str e) w)
  /\ csv (fst (drain to_csv_error (Yield (Raise e) rest) w))
     = csv (fst (drain to_csv_error rest w))
  /\ forall texts sch w0,
       snd (parallel_process_texts_in_threads summarizer to_csv_error
              texts sch w0) = Ok tt.
Proof.
  assert (Hstep : drain to_csv_error (Yield (Raise e) rest) w
                  = drain to_csv_error rest (add_log (error_warning e) w)).
  { cbn [drain bind Monad_M]. now rewrite drain_one_eq. }
  split; [exact Hstep|]. split.
  - rewrite Hstep. now apply drain_csv.
  - intros texts sch w0. now rewrite run_eq.
Qed.

End Batch.


Lemma deadline_stops_collection_witness :
  let texts := [short_section; long_section] in
  let sch := mkSchedule [1] true in
  valid_schedule (length texts) sch = true
  /\ count_occ LogRecord_eq_dec
       (log_written empty_world
          (fst (parallel_process_texts_in_threads echo writable
                  texts sch empty_world)))
       timeout_warning = 1.
Proof.
  intros texts sch. split; [reflexivity|].
  apply (deadline_stops_collection echo writable texts sch empty_world
           eq_refl eq_refl).
Defined.

(** C2, as stated, fails: a write that raises is not escalated.  With a
    sink that cannot write the first row, the batch logs the failure,
    writes the row of the next job and returns normally. *)
Lemma sink_failure_not_escalated :
  let done := parallel_process_texts_in_threads echo
                (rejects (txt "Climate Risk"))
                [short_section; long_section] (mkSchedule [0; 1] false)
                empty_world in
  snd done = Ok tt
  /\ log (fst done)
     = [(WARNING, txt "Error processing text: disk full");
        (INFO, txt "Row appended to CSV.")]
  /\ map col_title (csv (fst done)) = [txt "Flood Policy"].
Proof. vm_compute. auto. Qed.

Lemma sink_failure_logged_and_skipped_witness :
  let res := (txt "Climate Risk", txt "Body A.", txt "s", txt "c",
              mkMetadata None None None) in
  let sink := rejects (txt "Climate Risk") in
  sink (csv empty_world) (row_data res) = Some (Exception (txt "disk full"))
  /\ drain sink (Yield (Ok res) Exhausted) empty_world
     = drain sink Exhausted
         (add_log (error_warning (Exception (txt "disk full"))) empty_world).
Proof.
  intros res sink. split; [reflexivity|].
  apply (sink_failure_logged_and_skipped echo sink res
           (Exception (txt "disk full")) Exhausted empty_world eq_refl).
Defined.

(** C6, as stated, fails: the warning for a failed job does not name its
    section.  The job of the section titled "Flood Policy" raises, and the
    only record logged carries the text of the exception alone. *)
Lemma job_failure_log_omits_title :
  let done := parallel_process_texts_in_threads broken writable
                [long_section] (mkSchedule [0] false) empty_world in
  log (fst done) = [(WARNING, txt "Error processing text: boom")]
  /\ existsb (fun r => contains (txt "Flood Policy") (snd r)) (log (fst done))
     = false.
Proof. vm_compute. auto. Qed.

(** ** SectionSegmenter: where a body ends *)

Lemma scan_shift {G} (p : pattern G) t : forall prev k pos,
  scan p prev k pos t = map (shift pos) (scan p prev k 0 t).
Proof.
  induction t as [|c r IH]; intros prev k pos; [reflexivity|].
  assert (Hmap : forall prev' k',
            scan p prev' k' (S pos) r
            = map (shift pos) (scan p prev' k' 1 r)).
  { intros prev' k'. rewrite (IH prev' k' (S pos)), (IH prev' k' 1), map_map.
    apply map_ext. intros [a b g]. unfold shift. simpl. f_equal; lia. }
  simpl. destruct k as [|k]; [|apply Hmap].
  destruct (p prev (c :: r)) as [[[|n] g]|]; try apply Hmap.
  cbn [map]. rewrite Hmap. f_equal. unfold shift. cbn [m_start m_end m_group].
  now rewrite Nat.add_0_r.
Qed.

Lemma scan_starts {G} (p : pattern G) t : forall prev k pos,
  Forall (fun m => pos + k <= m_start m /\ m_start m < m_end m)
         (scan p prev k pos t).
Proof.
  induction t as [|c r IH]; intros prev k pos; simpl; [constructor|].
  assert (Hrest : forall prev' k', k <= S k' ->
            Forall (fun m => pos + k <= m_start m /\ m_start m < m_end m)
                   (scan p prev' k' (S pos) r)).
  { intros prev' k' Hk. eapply Forall_impl; [|apply IH]. simpl. lia. }
  destruct k as [|k]; [|apply Hrest; lia].
  destruct (p prev (c :: r)) as [[[|n] g]|]; try (apply Hrest; lia).
  constructor; [simpl; lia | apply Hrest; lia].
Qed.

Lemma scan_skipn {G} (p : pattern G) t : forall prev k pos,
  prev_blind p -> 0 < k ->
  scan p prev k pos t = scan p (Some NL) 0 (pos + k) (skipn k t).
Proof.
  induction t as [|c r IH]; intros prev k pos Hp Hk.
  - now rewrite skipn_nil.
  - destruct k as [|k]; [lia|]. simpl. destruct k as [|k].
    + rewrite Nat.add_1_r. destruct r as [|d r]; [reflexivity|].
      simpl. now rewrite (Hp c NL).
    + rewrite IH by (assumption || lia). f_equal. lia.
Qed.

(** What [finditer] reports after a match is what a search resumed at the
    end of that match reports. *)
Lemma scan_tail {G} (p : pattern G) t : forall prev k pos pre m rest,
  prev_blind p ->
  scan p prev k pos t = pre ++ m :: rest ->
  rest = scan p (Some NL) 0 (m_end m) (skipn (m_end m - pos) t).
Proof.
  induction t as [|c r IH]; intros prev k pos pre m rest Hp H.
  - now destruct pre.
  - assert (Hnext : forall pre' prev' k',
              scan p prev' k' (S pos) r = pre' ++ m :: rest ->
              rest = scan p (Some NL) 0 (m_end m)
                       (skipn (m_end m - pos) (c :: r))).
    { intros pre' prev' k' H'. pose proof (scan_starts p r prev' k' (S pos)) as Hs.
      rewrite H' in Hs. apply Forall_app in Hs as [_ Hs].
      inversion Hs as [|? ? [Hm1 Hm2] _]; subst.
      replace (m_end m - pos) with (S (m_end m - S pos)) by lia.
      simpl. eapply IH; eassumption. }
    simpl in H. destruct k as [|k]; [|now apply Hnext in H].
    destruct (p prev (c :: r)) as [[[|n] g]|]; try (now apply Hnext in H).
    destruct pre as [|x pre]; simpl in H.
    + injection H as <- <-. simpl.
      replace (pos + S n - pos) with (S n) by lia. simpl.
      destruct n as [|n].
      * rewrite Nat.add_1_r. destruct r as [|d r]; [reflexivity|].
        simpl. now rewrite (Hp c NL).
      * rewrite scan_skipn by (assumption || lia). f_equal. lia.
    + injection H as _ H. now apply Hnext in H.
Qed.

Lemma title_pattern_prev_blind title : prev_blind (title_pattern title).
Proof. intros c c' t. reflexivity. Qed.

Lemma istarts_with_nil lit : lit <> [] -> istarts_with lit [] = false.
Proof. now destruct lit. Qed.

(** A search restarted on a suffix differs from the resumed search only if
    the suffix itself begins with the title line. *)
Lemma rescan_resumed title t :
  title_pattern title None t = None ->
  scan (title_pattern title) None 0 0 t
  = scan (title_pattern title) (Some NL) 0 0 t.
Proof.
  destruct t as [|c r]; [reflexivity|]. intros H. simpl scan. rewrite H.
  assert (H' : title_pattern title (Some NL) (c :: r) = None).
  { revert H. unfold title_pattern. cbv zeta.
    destruct (istarts_with (title ++ [NL]) (c :: r)); [discriminate|].
    auto. }
  now rewrite H'.
Qed.

Lemma rescan_at_start title t x :
  title_pattern title None t = Some x ->
  exists m ms, scan (title_pattern title) None 0 0 t = m :: ms
               /\ m_start m = 0.
Proof.
  intros H. assert (Hlen : exists n, fst x = S n).
  { revert H. unfold title_pattern. cbv zeta.
    destruct (istarts_with (title ++ [NL]) t).
    - intros [= <-]. simpl. rewrite length_app, Nat.add_1_r. eauto.
    - destruct t as [|c r]; [discriminate|].
      destruct (_ && _); [|discriminate]. intros [= <-]. simpl. eauto. }
  destruct Hlen as [n Hn]. destruct x as [len g]. simpl in Hn. subst len.
  destruct t as [|c r].
  - exfalso. revert H. unfold title_pattern. cbv zeta.
    rewrite istarts_with_nil; [discriminate | now destruct title].
  - simpl scan. rewrite H. eauto.
Qed.

(** Unless the text after an occurrence begins with the title line again,
    the slice taken for the occurrence ends where the next occurrence found
    in the document starts, or at the end of the document after the last
    one. *)
Theorem body_span_up_to_next title content pre m rest :
  finditer (title_pattern title) content = pre ++ m :: rest ->
  next_title_pos title content (m_end m) <> Some 0 ->
  body_span title content m
  = (m_end m,
     match rest with
     | m' :: _ => m_start m'
     | [] => length content
     end).
Proof.
  unfold finditer. intros Hscan Hnext.
  apply scan_tail in Hscan; [|apply title_pattern_prev_blind].
  rewrite Nat.sub_0_r, scan_shift in Hscan.
  unfold body_span. revert Hnext. unfold next_title_pos, finditer.
  destruct (title_pattern title None (skipn (m_end m) content)) as [x|] eqn:E.
  - apply rescan_at_start in E as (m0 & ms & -> & ->). congruence.
  - rewrite (rescan_resumed _ _ E).
    destruct (scan (title_pattern title) (Some NL) 0 0
                (skipn (m_end m) content)) as [|m0 ms];
      subst rest; simpl; [reflexivity|].
    destruct (m_start m0); [congruence | reflexivity].
Qed.

(** The slip itself: when the text after an occurrence begins with the
    title line again, the slice runs to the end of the document. *)
Lemma body_span_adjacent title content m :
  next_title_pos title content (m_end m) = Some 0 ->
  body_span title content m = (m_end m, length content).
Proof. unfold body_span. now intros ->. Qed.

(** Two occurrences in a row then have slices that do not overlap. *)
Corollary body_spans_disjoint title content pre m m' rest :
  finditer (title_pattern title) content = pre ++ m :: m' :: rest ->
  next_title_pos title content (m_end m) <> Some 0 ->
  before (body_span title content m) (body_span title content m').
Proof.
  intros Hscan Hnext. rewrite (body_span_up_to_next _ _ _ _ _ Hscan Hnext).
  unfold before, finditer in *. simpl.
  pose proof (scan_starts (title_pattern title) content None 0 0) as Hs.
  rewrite Hscan in Hs. apply Forall_app in Hs as [_ Hs].
  inversion Hs as [|? ? _ Hs']; subst. inversion Hs' as [|? ? [_ Hm] _]; subst.
  unfold body_span.
  destruct (next_title_pos title content (m_end m')) as [[|n]|]; simpl; lia.
Qed.

Lemma ieq_NL c : ieq NL c = true -> c = NL.
Proof.
  destruct c as [[] [] [] [] [] [] [] []]; vm_compute; intros H;
    try reflexivity; discriminate H.
Qed.

Lemma istarts_with_last lit c t :
  istarts_with (lit ++ [c]) t = true ->
  exists d, nth_error t (length lit) = Some d /\ ieq c d = true.
Proof.
  revert t. induction lit as [|p lit IH]; intros [|d t]; simpl; try easy.
  - rewrite andb_true_r. eauto.
  - intros H. apply andb_prop in H as [_ H]. now apply IH.
Qed.

(** A match of the title pattern ends with the newline of the title line. *)
Lemma title_pattern_newline title prev t n g :
  title_pattern title prev t = Some (n, g) ->
  exists k, n = S k /\ nth_error t k = Some NL.
Proof.
  unfold title_pattern. cbv zeta.
  destruct (match prev with None => _ | Some _ => false end) eqn:E.
  - intros [= <- <-]. destruct prev; [discriminate|].
    apply istarts_with_last in E as [d [Hd Hnl]]. apply ieq_NL in Hnl as ->.
    exists (length title). rewrite length_app, Nat.add_1_r. auto.
  - destruct t as [|c r]; [discriminate|].
    destruct (is_nl c && istarts_with (title ++ [NL]) r) eqn:E';
      [|discriminate].
    intros [= <- <-]. apply andb_prop in E' as [_ E'].
    apply istarts_with_last in E' as [d [Hd Hnl]]. apply ieq_NL in Hnl as ->.
    exists (S (length title)). rewrite length_app, Nat.add_1_r. auto.
Qed.

Lemma scan_match_ends {G} (p : pattern G) (c0 : ascii) :
  (forall prev t n g, p prev t = Some (n, g) ->
                      exists k, n = S k /\ nth_error t k = Some c0) ->
  forall t pre prev k,
    Forall (fun m => 0 < m_end m
                     /\ nth_error (pre ++ t) (m_end m - 1) = Some c0)
           (scan p prev k (length pre) t).
Proof.
  intros Hp. induction t as [|c r IH]; intros pre prev k; [constructor|].
  assert (Hrest : forall prev' k',
            Forall (fun m => 0 < m_end m
                             /\ nth_error (pre ++ c :: r) (m_end m - 1)
                                = Some c0)
                   (scan p prev' k' (S (length pre)) r)).
  { intros prev' k'. specialize (IH (pre ++ [c]) prev' k').
    rewrite length_app, Nat.add_1_r, <- app_assoc in IH. exact IH. }
  simpl. destruct k as [|k]; [|apply Hrest].
  destruct (p prev (c :: r)) as [[[|n] g]|] eqn:E; try apply Hrest.
  constructor; [|apply Hrest]. simpl.
  apply Hp in E as [k [[= <-] Hk]]. split; [lia|].
  replace (length pre + S n - 1) with (length pre + n) by lia.
  rewrite nth_error_app2 by lia.
  now replace (length pre + n - length pre) with n by lia.
Qed.

(** The slice taken for an occurrence starts right after the newline that
    ends the matched title line. *)
Theorem body_starts_after_newline title content m :
  In m (finditer (title_pattern title) content) ->
  fst (body_span title content m) = m_end m
  /\ 0 < m_end m
  /\ nth_error content (m_end m - 1) = Some NL.
Proof.
  intros Hin. split.
  - unfold body_span. now destruct (next_title_pos _ _ _) as [[|n]|].
  - pose proof (scan_match_ends (title_pattern title) NL
                  (title_pattern_newline title) content [] None 0) as H.
    rewrite Forall_forall in H. exact (H m Hin).
Qed.

(** One section per occurrence, all with the title of the entry. *)
Lemma sections_of_title_count extract_metadata content title :
  length (sections_of_title extract_metadata content title)
  = length (finditer (title_pattern title) content)
  /\ Forall (fun sec => fst (fst sec) = title)
            (sections_of_title extract_metadata content title).
Proof.
  unfold sections_of_title. split; [apply length_map|].
  apply Forall_forall. intros sec Hin.
  apply in_map_iff in Hin as [m [<- _]]. reflexivity.
Qed.

(** ** SectionSegmenter at the failing inputs *)

(** C1 (the code at the failing input).  In a file where the title line is
    followed at once by a second title line, the next occurrence is found
    at offset 0 of the suffix; the slice from the start to that occurrence
    is empty, but the body taken is the whole rest of the file. *)
Theorem adjacent_title_line_body :
  extract_titles_from_toc doc_adjacent = [txt "T"]
  /\ finditer (title_pattern (txt "T")) doc_adjacent = [mkMatch 4 7 tt]
  /\ next_title_pos (txt "T") doc_adjacent 7 = Some 0
  /\ strip (slice doc_adjacent 7 (7 + 0)) = []
  /\ body_span (txt "T") doc_adjacent (mkMatch 4 7 tt)
     = (7, length doc_adjacent)
  /\ extracted_text (txt "T") doc_adjacent (mkMatch 4 7 tt)
     = txt "T" ++ NL :: txt "body"
  /\ forall extract_metadata,
       extract_text_beneath_duplicates extract_metadata doc_adjacent
         (extract_titles_from_toc doc_adjacent)
       = [(txt "T", txt "T body",
           extract_metadata (txt "T" ++ NL :: txt "body"))].
Proof. repeat split; intros; vm_compute; reflexivity. Qed.

(** C5 (the code at the failing input).  The title occurs twice in the
    body; the first occurrence is followed at once by another title line,
    so its slice runs to the end of the file and contains the slice of the
    second occurrence. *)
Theorem adjacent_title_line_overlap :
  finditer (title_pattern (txt "T")) doc_overlap
  = [mkMatch 4 7 tt; mkMatch 9 12 tt]
  /\ map (body_span (txt "T") doc_overlap)
         (finditer (title_pattern (txt "T")) doc_overlap)
     = [(7, 15); (12, 15)]
  /\ ~ before (7, 15) (12, 15)
  /\ forall extract_metadata,
       extract_text_beneath_duplicates extract_metadata doc_overlap
         (extract_titles_from_toc doc_overlap)
       = [(txt "T", txt "T T xyz",
           extract_metadata (txt "T" ++ NL :: NL :: txt "T" ++ NL
                             :: txt "xyz"));
          (txt "T", txt "xyz", extract_metadata (txt "xyz"))].
Proof.
  repeat split; intros; try (vm_compute; reflexivity).
  unfold before. simpl. lia.
Qed.

(** The example of the specification: each of the two titles occurs once,
    so each body runs to the end of the file. *)
Example spec_example_sections :
  extract_titles_from_toc doc_example
  = [txt "Climate Risk"; txt "Flood Policy"]
  /\ map (fun sec => (fst (fst sec), snd (fst sec)))
         (extract_text_beneath_duplicates no_metadata doc_example
            (extract_titles_from_toc doc_example))
     = [(txt "Climate Risk",
         txt "Body A mentions climate change and insurance costs. Flood Policy Body B unrelated.");
        (txt "Flood Policy", txt "Body B unrelated.")].
Proof. split; vm_compute; reflexivity. Qed.

Example clean_text_example :
  clean_text (txt "  see https://a.b/c?d  and" ++ NL :: txt " http://x now ")
  = txt "see and now"
  /\ clean_text (txt "hthttp://a https:// http:/ x")
     = txt "ht https:// http:/ x".
Proof. split; vm_compute; reflexivity. Qed.

(** ** CorrelationExtractor *)

Lemma re_split_pieces sep t :
  Forall (fun piece => forallb (fun c => negb (sep c)) piece = true)
         (re_split sep t).
Proof.
  induction t as [|c r IH]; [repeat constructor|].
  rewrite re_split_cons. destruct (sep c) eqn:E.
  - constructor; [reflexivity | exact IH].
  - destruct (re_split sep r) as [|piece pieces]; simpl.
    + repeat constructor. simpl. now rewrite E.
    + inversion IH; subst. constructor; [|assumption].
      simpl. now rewrite E.
Qed.

Section Correlation.

Variable summarizer : str -> result str.
Variable extract_metadata : str -> Metadata.

(** Every section handed to the jobs holds the cleaned text of the slice
    of one occurrence of its title. *)
Lemma section_text content titles title text md :
  In (title, text, md)
     (extract_text_beneath_duplicates extract_metadata content titles) ->
  exists m, In m (finditer (title_pattern title) content)
            /\ text = clean_text (extracted_text title content m)
            /\ md = extract_metadata (extracted_text title content m).
Proof.
  unfold extract_text_beneath_duplicates, sections_of_title. intros H.
  apply in_flat_map in H as [title' [_ H]].
  apply in_map_iff in H as [m [Heq Hm]]. injection Heq as <- <- <-.
  exists m. auto.
Qed.

Lemma job_outcome title text md res :
  outcome (process_text_item_in_threads summarizer (title, text, md)) = Ok res ->
  exists summary correlation,
    res = (title, text, summary, correlation, md)
    /\ outcome (summarize_text summarizer text) = Ok summary
    /\ outcome (summarize_climate_insurance_correlation summarizer text)
       = Ok correlation.
Proof.
  unfold process_text_item_in_threads, outcome. cbn [bind ret Monad_Job].
  destruct (summarize_text summarizer text) as [c1 [summary|e]];
    [|discriminate].
  destruct (summarize_climate_insurance_correlation summarizer text)
    as [c2 [correlation|e]]; [|discriminate].
  simpl. intros [= <-]. eauto.
Qed.

(** C4 (amended).  The CorrelationExtractor operates on the normalized
    text of the Section, the one [clean_text] returns for the raw body: it
    splits that text on the terminators, retains the trimmed sentences
    whose lowercased form contains both keywords, returns the sentinel
    without calling the summarizer when none is retained, and otherwise
    hands the retained sentences, joined by one space, to
    [summarize_text]. *)
Theorem correlation_reads_cleaned_text content titles title text md :
  In (title, text, md)
     (extract_text_beneath_duplicates extract_metadata content titles) ->
  (exists m, In m (finditer (title_pattern title) content)
             /\ text = clean_text (extracted_text title content m))
  /\ (forall res,
        outcome (process_text_item_in_threads summarizer (title, text, md))
        = Ok res ->
        exists summary correlation,
          res = (title, text, summary, correlation, md)
          /\ outcome (summarize_climate_insurance_correlation summarizer text)
             = Ok correlation)
  /\ (let sentences := re_split is_terminator text in
      let retained :=
        map strip
            (filter (fun sentence =>
                       contains (txt "climate change") (lower sentence)
                       && contains (txt "insurance") (lower sentence))
                    sentences) in
      Forall (fun sentence =>
                forallb (fun c => negb (is_terminator c)) sentence = true)
             sentences
      /\ (retained = [] ->
          calls (summarize_climate_insurance_correlation summarizer text) = []
          /\ outcome (summarize_climate_insurance_correlation summarizer text)
             = Ok no_correlation)
      /\ (retained <> [] ->
          summarize_climate_insurance_correlation summarizer text
          = summarize_text summarizer (join [SP] retained))).
Proof.
  intros Hin. split; [|split].
  - apply section_text in Hin as [m [Hm [Ht _]]]. eauto.
  - intros res Hres. apply job_outcome in Hres
      as (summary & correlation & -> & _ & Hc). eauto.
  - cbv zeta. split; [apply re_split_pieces|].
    unfold summarize_climate_insurance_correlation, correlation_sentences.
    fold mentions_both.
    change (fun sentence => contains (txt "climate change") (lower sentence)
                            && contains (txt "insurance") (lower sentence))
      with mentions_both.
    destruct (map strip (filter mentions_both (re_split is_terminator text)));
      split; intros H; [split; reflexivity | easy | discriminate | reflexivity].
Qed.

End Correlation.

Lemma correlation_reads_cleaned_text_witness :
  let text := txt "Climate change raises insurance costs for coastal homes every year" in
  In (txt "T", text, mkMetadata None None None)
     (extract_text_beneath_duplicates no_metadata doc_climate [txt "T"])
  /\ summarize_climate_insurance_correlation echo text = ([text], Ok text).
Proof.
  intros text.
  assert (Hin : In (txt "T", text, mkMetadata None None None)
                   (extract_text_beneath_duplicates no_metadata doc_climate
                      [txt "T"])) by (left; reflexivity).
  split; [exact Hin|].
  destruct (correlation_reads_cleaned_text echo no_metadata doc_climate
              [txt "T"] (txt "T") text _ Hin) as [_ [_ [_ [_ H]]]].
  rewrite H; [reflexivity | discriminate].
Defined.

(** C4, as stated, fails: the text searched for the keywords is not the
    raw body.  In the raw body of this section a line break splits
    "climate change", so on the raw text the extractor would return the
    sentinel and call nothing; the job, which is given the cleaned text,
    finds the sentence and calls the summarizer on it. *)
Lemma correlation_not_on_raw_text :
  let raw := extracted_text (txt "T") doc_climate (mkMatch 4 7 tt) in
  let cleaned :=
    txt "Climate change raises insurance costs for coastal homes every year" in
  finditer (title_pattern (txt "T")) doc_climate = [mkMatch 4 7 tt]
  /\ raw = txt "Climate" ++ NL
           :: txt "change raises insurance costs for coastal homes every year"
  /\ summarize_climate_insurance_correlation echo raw = ([], Ok no_correlation)
  /\ forall extract_metadata,
       map (process_text_item_in_threads echo)
           (extract_text_beneath_duplicates extract_metadata doc_climate
              (extract_titles_from_toc doc_climate))
       = [([cleaned; cleaned],
           Ok (txt "T", cleaned, cleaned, cleaned, extract_metadata raw))].
Proof. repeat split; intros; vm_compute; reflexivity. Qed.

(** * Properties of the rest of the program *)

(** ** Stripping *)

Lemma rstrip_snoc t c : is_space c = false -> rstrip (t ++ [c]) = t ++ [c].
Proof.
  intros Hc. induction t as [|d t IH]; simpl.
  - now rewrite Hc.
  - rewrite IH. now destruct (t ++ [c]) eqn:E; [destruct t|].
Qed.

(** [rstrip] removes exactly a final run of whitespace. *)
Lemma rstrip_split t :
  exists ws, t = rstrip t ++ ws /\ forallb is_space ws = true.
Proof.
  induction t as [|c t [ws [IH Hws]]]; [now exists []|].
  rewrite rstrip_cons. destruct (rstrip t) as [|d r] eqn:E.
  - destruct (is_space c) eqn:Ec.
    + exists (c :: t). split; [reflexivity|]. simpl. rewrite Ec.
      simpl in IH. now subst t.
    + exists ws. simpl in IH. subst t. now split.
  - exists ws. split; [|assumption]. simpl. f_equal. exact IH.
Qed.

Lemma lstrip_split t :
  exists ws, t = ws ++ lstrip t /\ forallb is_space ws = true.
Proof.
  induction t as [|c t [ws [IH Hws]]]; [now exists []|]. simpl.
  destruct (is_space c) eqn:Ec.
  - exists (c :: ws). simpl. rewrite Ec. split; [now f_equal | assumption].
  - now exists [].
Qed.

Lemma strip_split t :
  exists a b, t = a ++ strip t ++ b.
Proof.
  destruct (lstrip_split t) as [a [Ha _]].
  destruct (rstrip_split (lstrip t)) as [b [Hb _]].
  exists a, b. unfold strip. now rewrite <- Hb.
Qed.

Lemma strip_length t : length (strip t) <= length t.
Proof.
  destruct (strip_split t) as [a [b H]]. rewrite H at 2.
  rewrite !length_app. lia.
Qed.

Lemma tail_space_rstrip t : tail_space (rstrip t) = false.
Proof.
  unfold tail_space. induction t as [|c t IH]; [reflexivity|].
  rewrite rstrip_cons. destruct (rstrip t) as [|d r] eqn:E.
  - destruct (is_space c) eqn:Ec; simpl; [reflexivity | exact Ec].
  - simpl in *. destruct (rev r ++ [d]) eqn:E'; [now destruct (rev r)|].
    simpl in *. exact IH.
Qed.

(** What [strip] returns has nothing left to strip. *)
Lemma strip_stripped t : stripped (strip t) = true.
Proof.
  unfold stripped, strip.
  rewrite head_space_rstrip by apply head_space_lstrip.
  now rewrite tail_space_rstrip.
Qed.

Lemma stripped_fixed t : stripped t = true -> strip t = t.
Proof.
  unfold stripped, tail_space, strip. intros H.
  apply andb_prop in H as [Hh Ht]. apply negb_true_iff in Hh, Ht.
  rewrite lstrip_fixed by assumption.
  destruct (rev t) as [|c r] eqn:E.
  - apply (f_equal (@rev ascii)) in E. rewrite rev_involutive in E. now subst.
  - apply (f_equal (@rev ascii)) in E. rewrite rev_involutive in E.
    simpl in E. subst t. now apply rstrip_snoc.
Qed.

(** ** [re.search] *)

Lemma re_search_found {G} (f : str -> option G) t g :
  re_search f t = Some g -> exists k, f (skipn k t) = Some g.
Proof.
  induction t as [|c r IH]; simpl.
  - destruct (f []) eqn:E; [|discriminate]. intros [= <-]. now exists 0.
  - destruct (f (c :: r)) eqn:E.
    + intros [= <-]. now exists 0.
    + intros H. destruct (IH H) as [k Hk]. now exists (S k).
Qed.

(** The search succeeds at once where the pattern matches at the start. *)
Lemma re_search_here {G} (f : str -> option G) t g :
  f t = Some g -> re_search f t = Some g.
Proof. intros H. destruct t; simpl; now rewrite H. Qed.

(** ** Matching up to case *)

Lemma istarts_with_lower lit t :
  istarts_with lit t = starts_with (lower lit) (lower t).
Proof.
  revert t. induction lit as [|p lit IH]; intros [|c t]; simpl; try reflexivity.
  now rewrite IH.
Qed.

Lemma contains_skipn needle hay :
  contains needle hay = true <->
  exists k, starts_with needle (skipn k hay) = true.
Proof.
  induction hay as [|c hay IH]; simpl.
  - rewrite orb_false_r. split.
    + intros H. now exists 0.
    + intros [k H]. now rewrite skipn_nil in H.
  - split.
    + intros H. apply orb_prop in H as [H|H]; [now exists 0|].
      apply IH in H as [k H]. now exists (S k).
    + intros [[|k] H]; simpl in H; [now rewrite H|].
      apply orb_true_iff. right. apply IH. now exists k.
Qed.

(** ** MetadataExtractor *)

Lemma digit_not_space c : is_digit c = true -> is_space c = false.
Proof.
  destruct c as [[] [] [] [] [] [] [] []]; vm_compute; intros H;
    try reflexivity; discriminate H.
Qed.

Lemma is_date_stripped d : is_date d = true -> stripped d = true.
Proof.
  destruct d as [|y1 [|y2 [|y3 [|y4 [|h1 [|m1 [|m2 [|h2 [|d1 [|d2 [|x d]]]]]]]]]]];
    try discriminate.
  unfold is_date. intros H. apply andb_prop in H as [H _].
  apply andb_prop in H as [H _]. simpl in H.
  repeat (apply andb_prop in H as [? H]).
  unfold stripped, tail_space. simpl.
  now rewrite !digit_not_space.
Qed.

Lemma date_at_is_date t d : date_at t = Some d -> is_date d = true.
Proof.
  unfold date_at. destruct (alternation _ t); [|discriminate]. cbv zeta.
  destruct (is_date _) eqn:E; [|discriminate]. now intros [= <-].
Qed.

(** X1.  The date that [extract_metadata] reports, when it reports one, is
    a token of ten characters, four digits, two digits and two digits
    separated by hyphens, unchanged by the final strip. *)
Theorem extract_metadata_date_format text d :
  Date (extract_metadata text) = Some d -> is_date d = true /\ length d = 10.
Proof.
  unfold extract_metadata. cbn [Date].
  destruct (re_search date_at text) as [g|] eqn:E; [|discriminate].
  simpl. intros [= <-]. apply re_search_found in E as [k E].
  apply date_at_is_date in E.
  rewrite stripped_fixed by now apply is_date_stripped.
  split; [exact E|].
  destruct g as [|y1 [|y2 [|y3 [|y4 [|h1 [|m1 [|m2 [|h2 [|d1 [|d2 [|x g]]]]]]]]]]];
    try discriminate. reflexivity.
Qed.

Lemma extract_metadata_date_format_witness :
  Date (extract_metadata (txt "Issue date - 2020-13-45, updated"))
  = Some (txt "2020-13-45")
  /\ is_date (txt "2020-13-45") = true.
Proof.
  split; [reflexivity|].
  exact (proj1 (extract_metadata_date_format
                  (txt "Issue date - 2020-13-45, updated")
                  (txt "2020-13-45") eq_refl)).
Defined.

(** ** The author and the publication title beyond Latin-1 *)

Lemma u_rstrip_cons c r :
  Unicode.rstrip (c :: r) =
  match Unicode.rstrip r with
  | [] => if Unicode.is_space c then [] else [c]
  | _ :: _ => c :: Unicode.rstrip r
  end.
Proof. simpl. destruct (Unicode.rstrip r); reflexivity. Qed.

Lemma u_head_space_lstrip t : Unicode.head_space (Unicode.lstrip t) = false.
Proof.
  induction t as [|c r IH]; simpl; [reflexivity|].
  destruct (Unicode.is_space c) eqn:E; [exact IH | simpl; exact E].
Qed.

Lemma u_head_space_rstrip t :
  Unicode.head_space t = false ->
  Unicode.head_space (Unicode.rstrip t) = false.
Proof.
  destruct t as [|c r]; [reflexivity|].
  rewrite u_rstrip_cons. simpl. intros E.
  destruct (Unicode.rstrip r); [rewrite E|]; simpl; auto.
Qed.

Lemma u_tail_space_rstrip t :
  Unicode.head_space (rev (Unicode.rstrip t)) = false.
Proof.
  induction t as [|c t IH]; [reflexivity|].
  rewrite u_rstrip_cons. destruct (Unicode.rstrip t) as [|d r] eqn:E.
  - destruct (Unicode.is_space c) eqn:Ec; simpl; [reflexivity | exact Ec].
  - simpl in *. destruct (rev r ++ [d]) eqn:E'; [now destruct (rev r)|].
    simpl in *. exact IH.
Qed.

(** What [strip] returns has nothing left to strip, whatever the code
    points. *)
Lemma u_strip_stripped t : Unicode.stripped (Unicode.strip t) = true.
Proof.
  unfold Unicode.stripped, Unicode.strip.
  rewrite u_head_space_rstrip by apply u_head_space_lstrip.
  now rewrite u_tail_space_rstrip.
Qed.

Lemma u_rstrip_split t : exists ws, t = Unicode.rstrip t ++ ws.
Proof.
  induction t as [|c t [ws IH]]; [now exists []|].
  rewrite u_rstrip_cons. destruct (Unicode.rstrip t) as [|d r] eqn:E.
  - destruct (Unicode.is_space c).
    + now exists (c :: t).
    + exists ws. simpl in IH. now subst t.
  - exists ws. simpl. f_equal. exact IH.
Qed.

Lemma u_lstrip_split t : exists ws, t = ws ++ Unicode.lstrip t.
Proof.
  induction t as [|c t [ws IH]]; [now exists []|]. simpl.
  destruct (Unicode.is_space c).
  - exists (c :: ws). simpl. now f_equal.
  - now exists [].
Qed.

Lemma u_forallb_strip p t :
  forallb p t = true -> forallb p (Unicode.strip t) = true.
Proof.
  destruct (u_lstrip_split t) as [a Ha].
  destruct (u_rstrip_split (Unicode.lstrip t)) as [b Hb].
  unfold Unicode.strip. rewrite Ha at 1. rewrite Hb at 1.
  rewrite !forallb_app. intros Hp.
  apply andb_prop in Hp as [_ Hp]. now apply andb_prop in Hp as [Hp _].
Qed.

Lemma u_re_search_found {G} (f : Unicode.text -> option G) t g :
  Unicode.re_search f t = Some g -> exists k, f (skipn k t) = Some g.
Proof.
  induction t as [|c r IH]; simpl.
  - destruct (f []) eqn:E; [|discriminate]. intros [= <-]. now exists 0.
  - destruct (f (c :: r)) eqn:E.
    + intros [= <-]. now exists 0.
    + intros H. destruct (IH H) as [k Hk]. now exists (S k).
Qed.

Lemma u_re_search_none {G} (f : Unicode.text -> option G) t :
  Unicode.re_search f t = None <-> forall k, f (skipn k t) = None.
Proof.
  induction t as [|c r IH]; simpl.
  - destruct (f []) eqn:E; split; try easy.
    + intros H. specialize (H 0). simpl in H. congruence.
    + intros _ k. now rewrite skipn_nil.
  - destruct (f (c :: r)) eqn:E; split; try easy.
    + intros H. specialize (H 0). simpl in H. congruence.
    + intros H [|k]; [exact E | now apply IH].
    + intros H. apply IH. intros k. exact (H (S k)).
Qed.

Lemma u_occurs_at lit t :
  Unicode.occurs lit t = true <->
  exists k, Unicode.istarts_with lit (skipn k t) = true.
Proof.
  induction t as [|c t IH]; simpl.
  - rewrite orb_false_r. split.
    + intros H. now exists 0.
    + intros [k H]. now rewrite skipn_nil in H.
  - split.
    + intros H. apply orb_prop in H as [H|H]; [now exists 0|].
      apply IH in H as [k H]. now exists (S k).
    + intros [[|k] H]; simpl in H; [now rewrite H|].
      apply orb_true_iff. right. apply IH. now exists k.
Qed.

(** A literal found at a position puts each of its parts where it
    belongs. *)
Lemma u_istarts_with_app a b t :
  Unicode.istarts_with (a ++ b) t = true ->
  Unicode.istarts_with b (skipn (length a) t) = true.
Proof.
  revert t. induction a as [|p a IH]; intros t; [easy|].
  destruct t as [|c t]; [discriminate|]. cbn [app Unicode.istarts_with].
  intros H. apply andb_prop in H as [_ H]. now apply IH.
Qed.

Lemma u_span_forallb p t : forallb p (firstn (Unicode.span p t) t) = true.
Proof.
  induction t as [|c r IH]; simpl; [reflexivity|].
  destruct (p c) eqn:E; simpl; [now rewrite E | reflexivity].
Qed.

Lemma u_publication_title_at_some t :
  Unicode.publication_title_at t <> None <->
  Unicode.istarts_with (Unicode.lit "publication title") t = true
  \/ Unicode.istarts_with (Unicode.lit "title") t = true.
Proof.
  unfold Unicode.publication_title_at. cbn [Unicode.alternation].
  destruct (Unicode.istarts_with (Unicode.lit "publication title") t);
    [|destruct (Unicode.istarts_with (Unicode.lit "title") t)]; cbv zeta;
    split; intros H; try easy; auto.
  now destruct H.
Qed.

Lemma u_publication_title_at_line t p :
  Unicode.publication_title_at t = Some p ->
  forallb Unicode.not_nl p = true.
Proof.
  unfold Unicode.publication_title_at.
  destruct (Unicode.alternation _ t); [|discriminate].
  cbv zeta. intros [= <-]. apply u_span_forallb.
Qed.

(** X2.  [extract_metadata] stores a publication title exactly when the
    text holds "title" somewhere, also inside a word, up to case as the
    engine folds it: each letter small or capital, and U+0130 or U+0131
    for the i.  The title stored has no newline and no whitespace of any
    kind at either end. *)
Theorem extract_metadata_title_found text :
  (Unicode.metadata_publication_title text <> None
   <-> Unicode.occurs (Unicode.lit "title") text = true)
  /\ forall p, Unicode.metadata_publication_title text = Some p ->
               forallb Unicode.not_nl p = true
               /\ Unicode.stripped p = true.
Proof.
  unfold Unicode.metadata_publication_title. split.
  - rewrite u_occurs_at. split.
    + intros H.
      destruct (Unicode.re_search Unicode.publication_title_at text)
        as [g|] eqn:E; [|easy].
      apply u_re_search_found in E as [k E].
      assert (Hne : Unicode.publication_title_at (skipn k text) <> None)
        by congruence.
      apply u_publication_title_at_some in Hne as [Hp|Ht]; [|now exists k].
      exists (length (Unicode.lit "publication ") + k).
      rewrite <- skipn_skipn.
      now apply (u_istarts_with_app (Unicode.lit "publication ")
                   (Unicode.lit "title")).
    + intros [k Hk].
      destruct (Unicode.re_search Unicode.publication_title_at text)
        as [g|] eqn:E; [easy|].
      exfalso. rewrite u_re_search_none in E. specialize (E k).
      revert E. apply u_publication_title_at_some. now right.
  - intros p.
    destruct (Unicode.re_search Unicode.publication_title_at text)
      as [g|] eqn:E; [|discriminate].
    simpl. intros [= <-]. apply u_re_search_found in E as [k E].
    split; [|apply u_strip_stripped].
    apply u_forallb_strip. eapply u_publication_title_at_line, E.
Qed.

Lemma extract_metadata_title_found_witness :
  Unicode.occurs (Unicode.lit "title") Unicode.dotless_title = true
  /\ Unicode.metadata_publication_title Unicode.dotless_title
     = Some (Unicode.lit "x").
Proof.
  split; [reflexivity|].
  pose proof (proj2 (proj1 (extract_metadata_title_found
                              Unicode.dotless_title)) eq_refl) as H.
  destruct (Unicode.metadata_publication_title Unicode.dotless_title)
    eqn:E; [|easy].
  vm_compute in E. now injection E as <-.
Defined.

Lemma u_author_at_chars t a :
  Unicode.author_at t = Some a -> forallb Unicode.is_name_char a = true.
Proof.
  unfold Unicode.author_at.
  destruct (Unicode.alternation _ t); [|discriminate]. cbv zeta.
  destruct (Unicode.span Unicode.is_name_char _) eqn:E.
  - destruct (existsb _ _); [|discriminate]. now intros [= <-].
  - intros H. rewrite <- E in H. injection H as <-.
    apply u_span_forallb.
Qed.

Lemma u_author_at_key t a :
  Unicode.author_at t = Some a ->
  Unicode.istarts_with (Unicode.lit "author") t = true
  \/ Unicode.istarts_with (Unicode.lit "by") t = true.
Proof.
  unfold Unicode.author_at. cbn [Unicode.alternation].
  destruct (Unicode.istarts_with (Unicode.lit "author") t); [auto|].
  destruct (Unicode.istarts_with (Unicode.lit "by") t);
    [auto | discriminate].
Qed.

(** X3.  The author that [extract_metadata] stores is made only of ASCII
    letters, of the four letters that the engine folds onto i, s and k
    (U+0130, U+0131, U+017F, U+212A), of commas, periods and spaces, and
    has no whitespace of any kind at either end.  No author is stored for
    a text that holds neither "author" nor "by", in either case of each
    letter. *)
Theorem extract_metadata_author_chars text :
  (forall a, Unicode.metadata_author text = Some a ->
             forallb Unicode.is_name_char a = true
             /\ Unicode.stripped a = true)
  /\ (Unicode.occurs (Unicode.lit "author") text = false ->
      Unicode.occurs (Unicode.lit "by") text = false ->
      Unicode.metadata_author text = None).
Proof.
  unfold Unicode.metadata_author. split.
  - intros a. destruct (Unicode.re_search Unicode.author_at text)
      as [g|] eqn:E; [|discriminate].
    simpl. intros [= <-]. apply u_re_search_found in E as [k E].
    split; [|apply u_strip_stripped].
    apply u_forallb_strip. eapply u_author_at_chars, E.
  - intros Ha Hb. destruct (Unicode.re_search Unicode.author_at text)
      as [g|] eqn:E; [|reflexivity].
    apply u_re_search_found in E as [k E]. apply u_author_at_key in E as [E|E].
    + assert (Unicode.occurs (Unicode.lit "author") text = true);
        [|congruence].
      apply u_occurs_at. now exists k.
    + assert (Unicode.occurs (Unicode.lit "by") text = true); [|congruence].
      apply u_occurs_at. now exists k.
Qed.

Lemma extract_metadata_author_chars_witness :
  Unicode.metadata_author Unicode.by_kelvin_smith = Some Unicode.kelvin_smith
  /\ forallb Unicode.is_name_char Unicode.kelvin_smith = true
  /\ Unicode.stripped Unicode.kelvin_smith = true
  /\ Unicode.metadata_author (Unicode.lit "Floods in 2021") = None.
Proof.
  assert (E : Unicode.metadata_author Unicode.by_kelvin_smith
              = Some Unicode.kelvin_smith) by reflexivity.
  split; [exact E|].
  destruct (proj1 (extract_metadata_author_chars Unicode.by_kelvin_smith)
              Unicode.kelvin_smith E) as [H1 H2].
  split; [exact H1|]. split; [exact H2|].
  exact (proj2 (extract_metadata_author_chars (Unicode.lit "Floods in 2021"))
           eq_refl eq_refl).
Defined.

(** ** A text that opens with a key *)

Lemma lower_app a b : lower (a ++ b) = lower a ++ lower b.
Proof. apply map_app. Qed.

Lemma lower_length t : length (lower t) = length t.
Proof. apply length_map. Qed.

Lemma starts_with_self lit x : starts_with lit (lit ++ x) = true.
Proof.
  induction lit as [|c lit IH]; [reflexivity|]. simpl.
  now rewrite Ascii.eqb_refl.
Qed.

Lemma skipn_key {A} (key x : list A) : skipn (length key) (key ++ x) = x.
Proof. induction key; simpl; auto. Qed.

(** A key written in any case is recognised at the start of a text. *)
Lemma alternation_first lit lits key x :
  lower key = lower lit ->
  alternation (lit :: lits) (key ++ x) = Some (length key).
Proof.
  intros H. simpl. rewrite istarts_with_lower, lower_app, H, starts_with_self.
  now rewrite <- (lower_length lit), <- H, lower_length.
Qed.

Lemma alternation_second lit1 lit2 lits key x :
  lower key = lower lit2 ->
  starts_with (lower lit1) (lower lit2 ++ lower x) = false ->
  alternation (lit1 :: lit2 :: lits) (key ++ x) = Some (length key).
Proof.
  intros H Hno. cbn [alternation].
  rewrite istarts_with_lower, lower_app, H, Hno.
  now apply alternation_first.
Qed.

Lemma span_run p run x :
  forallb p run = true -> head_in p x = false -> span p (run ++ x) = length run.
Proof.
  intros Hr Hx. apply span_app_stop; [assumption|].
  destruct x; [exact I | exact Hx].
Qed.

Lemma digit_not_sep c : is_digit c = true -> is_sep c = false.
Proof.
  destruct c as [[] [] [] [] [] [] [] []]; vm_compute; intros H;
    try reflexivity; discriminate H.
Qed.

Lemma author_at_header key sep name rest :
  lower key = txt "author" \/ lower key = txt "by" ->
  forallb is_sep sep = true ->
  head_in (fun c => negb (is_sep c)) name = true ->
  forallb is_name_char name = true ->
  head_in is_name_char rest = false ->
  author_at (key ++ sep ++ name ++ rest) = Some name.
Proof.
  intros Hkey Hsep Hhead Hname Hrest. unfold author_at.
  assert (Halt : alternation [txt "author"; txt "by"]
                   (key ++ sep ++ name ++ rest) = Some (length key)).
  { destruct Hkey as [H|H].
    - now apply alternation_first.
    - now apply alternation_second. }
  rewrite Halt, skipn_key. cbv zeta.
  assert (Hspan : span is_sep (sep ++ name ++ rest) = length sep).
  { apply span_run; [assumption|]. destruct name as [|c name]; [discriminate|].
    simpl in *. now apply negb_true_iff. }
  rewrite Hspan, skipn_key, (span_run _ _ _ Hname Hrest).
  destruct name as [|c name]; [discriminate|]. cbn [length].
  change (S (length name)) with (length (c :: name)).
  now rewrite firstn_app, Nat.sub_diag, firstn_all, app_nil_r.
Qed.

Lemma publication_title_at_header key sep p rest :
  lower key = txt "publication title" \/ lower key = txt "title" ->
  forallb is_sep sep = true ->
  head_in is_sep (p ++ rest) = false ->
  forallb not_nl p = true ->
  head_in not_nl rest = false ->
  publication_title_at (key ++ sep ++ p ++ rest) = Some p.
Proof.
  intros Hkey Hsep Hhead Hp Hrest. unfold publication_title_at.
  assert (Halt : alternation [txt "publication title"; txt "title"]
                   (key ++ sep ++ p ++ rest) = Some (length key)).
  { destruct Hkey as [H|H].
    - now apply alternation_first.
    - now apply alternation_second. }
  rewrite Halt, skipn_key. cbv zeta.
  rewrite (span_run _ _ _ Hsep Hhead), skipn_key, (span_run _ _ _ Hp Hrest).
  now rewrite firstn_app, Nat.sub_diag, firstn_all, app_nil_r.
Qed.

Lemma date_at_header key sep d rest :
  lower key = txt "date" \/ lower key = txt "published" ->
  forallb is_sep sep = true ->
  is_date d = true ->
  date_at (key ++ sep ++ d ++ rest) = Some d.
Proof.
  intros Hkey Hsep Hd. unfold date_at.
  assert (Halt : alternation [txt "date"; txt "published"]
                   (key ++ sep ++ d ++ rest) = Some (length key)).
  { destruct Hkey as [H|H].
    - now apply alternation_first.
    - now apply alternation_second. }
  rewrite Halt, skipn_key. cbv zeta.
  assert (Hspan : span is_sep (sep ++ d ++ rest) = length sep).
  { apply span_run; [assumption|].
    destruct d as [|y1 d]; [discriminate|]. simpl.
    apply digit_not_sep.
    destruct d as [|y2 [|y3 [|y4 [|h1 [|m1 [|m2 [|h2 [|d1 [|d2 [|x d]]]]]]]]]];
      try discriminate.
    unfold is_date in Hd. apply andb_prop in Hd as [Hd _].
    apply andb_prop in Hd as [Hd _]. simpl in Hd.
    now apply andb_prop in Hd as [Hd _]. }
  rewrite Hspan, skipn_key.
  assert (Hfirst : firstn 10 (d ++ rest) = d).
  { destruct d as [|y1 [|y2 [|y3 [|y4 [|h1 [|m1 [|m2 [|h2 [|d1 [|d2 [|x d]]]]]]]]]]];
      try discriminate. reflexivity. }
  now rewrite Hfirst, Hd.
Qed.

(** X4.  A text that opens with a metadata key in any case, separators,
    and a value gives that value back, stripped: the author up to the
    first character that cannot be in a name, the publication title up to
    the end of the line, the date as it is. *)
Theorem extract_metadata_header key sep value rest :
  forallb is_sep sep = true ->
  (lower key = txt "author" \/ lower key = txt "by" ->
   head_in (fun c => negb (is_sep c)) value = true ->
   forallb is_name_char value = true ->
   head_in is_name_char rest = false ->
   Author (extract_metadata (key ++ sep ++ value ++ rest))
   = Some (strip value))
  /\ (lower key = txt "publication title" \/ lower key = txt "title" ->
      head_in is_sep (value ++ rest) = false ->
      forallb not_nl value = true ->
      head_in not_nl rest = false ->
      Publication_Title (extract_metadata (key ++ sep ++ value ++ rest))
      = Some (strip value))
  /\ (lower key = txt "date" \/ lower key = txt "published" ->
      is_date value = true ->
      Date (extract_metadata (key ++ sep ++ value ++ rest)) = Some value).
Proof.
  intros Hsep. unfold extract_metadata. cbn [Author Publication_Title Date].
  split; [|split].
  - intros Hkey Hhead Hv Hrest.
    now rewrite (re_search_here _ _ _
                   (author_at_header _ _ _ _ Hkey Hsep Hhead Hv Hrest)).
  - intros Hkey Hhead Hv Hrest.
    now rewrite (re_search_here _ _ _
                   (publication_title_at_header _ _ _ _ Hkey Hsep Hhead Hv
                      Hrest)).
  - intros Hkey Hv.
    rewrite (re_search_here _ _ _ (date_at_header _ _ _ rest Hkey Hsep Hv)).
    simpl. f_equal. now apply stripped_fixed, is_date_stripped.
Qed.

Lemma extract_metadata_header_witness :
  Author (extract_metadata (txt "BY" ++ txt ": " ++ txt "Jane Doe " ++ [NL]))
  = Some (txt "Jane Doe")
  /\ Date (extract_metadata
             (txt "Published" ++ txt " - " ++ txt "2021-03-04" ++ txt "."))
     = Some (txt "2021-03-04").
Proof.
  split.
  - exact (proj1 (extract_metadata_header (txt "BY") (txt ": ")
                    (txt "Jane Doe ") [NL] eq_refl)
             (or_intror eq_refl) eq_refl eq_refl eq_refl).
  - exact (proj2 (proj2 (extract_metadata_header (txt "Published")
                           (txt " - ") (txt "2021-03-04") (txt ".") eq_refl))
             (or_intror eq_refl) eq_refl).
Defined.

(** X5.  An author key followed only by separators, one of them a space,
    and then by something that cannot start a name, yields an author that
    is present and empty: the pattern falls back on the space. *)
Theorem extract_metadata_author_empty key sep rest :
  lower key = txt "author" \/ lower key = txt "by" ->
  forallb is_sep sep = true ->
  existsb (Ascii.eqb SP) sep = true ->
  head_in is_sep rest = false ->
  head_in is_name_char rest = false ->
  Author (extract_metadata (key ++ sep ++ rest)) = Some [].
Proof.
  intros Hkey Hsep Hsp Hrs Hrn. unfold extract_metadata. cbn [Author].
  assert (Hat : author_at (key ++ sep ++ rest) = Some [SP]).
  { unfold author_at.
    assert (Halt : alternation [txt "author"; txt "by"] (key ++ sep ++ rest)
                   = Some (length key)).
    { destruct Hkey as [H|H].
      - now apply alternation_first.
      - now apply alternation_second. }
    rewrite Halt, skipn_key. cbv zeta.
    rewrite (span_run _ _ _ Hsep Hrs), skipn_key.
    assert (Hz : span is_name_char rest = 0).
    { destruct rest as [|c rest]; [reflexivity|]. simpl in *. now rewrite Hrn. }
    rewrite Hz, firstn_app, Nat.sub_diag, firstn_all. simpl firstn.
    now rewrite app_nil_r, Hsp. }
  now rewrite (re_search_here _ _ _ Hat).
Qed.

Lemma extract_metadata_author_empty_witness :
  Author (extract_metadata (txt "by" ++ txt ": " ++ txt "2021")) = Some [].
Proof.
  exact (extract_metadata_author_empty (txt "by") (txt ": ") (txt "2021")
           (or_intror eq_refl) eq_refl eq_refl eq_refl eq_refl).
Defined.

(** ** SummaryDriver *)

Lemma slice_chunk t k n :
  slice t (k * n) (k * n + n) = firstn n (skipn (k * n) t).
Proof. unfold slice. f_equal. lia. Qed.

Lemma pieces_concat n m : forall t : str,
  length t <= m * n ->
  concat (map (fun k => firstn n (skipn (k * n) t)) (seq 0 m)) = t.
Proof.
  induction m as [|m IH]; intros t Hlen.
  - simpl in *. destruct t; [reflexivity | simpl in Hlen; lia].
  - rewrite <- cons_seq, <- seq_shift, map_cons, map_map, concat_cons.
    simpl skipn. rewrite <- (firstn_skipn n t) at 2. f_equal.
    rewrite <- (IH (skipn n t)) at 1 by (rewrite length_skipn; lia).
    f_equal. apply map_ext. intros k. rewrite skipn_skipn.
    do 2 f_equal. lia.
Qed.

Lemma chunks_concat_upto n m t :
  length t <= m * n ->
  concat (map (fun i => slice t i (i + n)) (map (fun k => k * n) (seq 0 m)))
  = t.
Proof.
  intros H. rewrite map_map.
  rewrite (map_ext _ (fun k => firstn n (skipn (k * n) t)))
    by (intros; apply slice_chunk).
  now apply pieces_concat.
Qed.

Lemma ceil_div_bounds len n :
  0 < n ->
  len <= ((len + n - 1) / n) * n
  /\ (0 < (len + n - 1) / n -> ((len + n - 1) / n - 1) * n < len).
Proof.
  intros Hn. pose proof (Nat.div_mod_eq (len + n - 1) n) as Hd.
  pose proof (Nat.mod_upper_bound (len + n - 1) n) as Hm.
  set (q := (len + n - 1) / n) in *. set (r := (len + n - 1) mod n) in *.
  split; [nia|]. intros Hq. nia.
Qed.

Lemma max_chunk_size_pos : 0 < max_chunk_size.
Proof. unfold max_chunk_size. lia. Qed.

(** The chunks are the text cut at every 2048th character: together they
    are the text, none is empty, none is longer than 2048 characters. *)
Lemma chunks_of_cover t :
  concat (chunks_of t) = t
  /\ Forall (fun c => 0 < length c <= max_chunk_size) (chunks_of t)
  /\ length (chunks_of t)
     = (length t + max_chunk_size - 1) / max_chunk_size.
Proof.
  unfold chunks_of, range_step. pose proof max_chunk_size_pos as Hn.
  generalize dependent max_chunk_size. intros n Hn.
  destruct (ceil_div_bounds (length t) n Hn) as [Hup Hlow].
  split; [now apply chunks_concat_upto|]. split.
  - apply Forall_forall. intros c Hc.
    apply in_map_iff in Hc as [i [<- Hi]].
    apply in_map_iff in Hi as [k [<- Hk]]. apply in_seq in Hk.
    rewrite slice_chunk, length_firstn, length_skipn.
    assert (k * n < length t) by (specialize (Hlow ltac:(lia)); nia). lia.
  - now rewrite !length_map, length_seq.
Qed.

Section SummaryDriver.

Variable summarizer : str -> result str.

Lemma summarize_text_long text :
  50 <= length (strip text) ->
  summarize_text summarizer text
  = (summaries <- summaries_of summarizer (chunks_of (strip text)) ;;
     ret (join [SP] summaries)).
Proof.
  intros H. unfold summarize_text. cbv zeta.
  apply Nat.ltb_ge in H. now rewrite H.
Qed.

Lemma summaries_of_all_ok f chunks :
  (forall c, In c chunks -> summarizer c = Ok (f c)) ->
  summaries_of summarizer chunks = (chunks, Ok (map f chunks)).
Proof.
  induction chunks as [|c chunks IH]; intros H; [reflexivity|].
  cbn [summaries_of bind ret Monad_Job]. unfold call_summarizer.
  rewrite (H c (or_introl eq_refl)), IH by (intros; apply H; now right).
  simpl. now rewrite app_nil_r.
Qed.

Lemma summaries_of_failure before c after e :
  Forall (fun b => exists sm, summarizer b = Ok sm) before ->
  summarizer c = Raise e ->
  summaries_of summarizer (before ++ c :: after) = (before ++ [c], Raise e).
Proof.
  intros Hb Hc. induction Hb as [|b before [sm Hsm] _ IH].
  - cbn [app summaries_of bind ret Monad_Job]. unfold call_summarizer.
    now rewrite Hc.
  - cbn [app summaries_of bind ret Monad_Job]. unfold call_summarizer.
    rewrite Hsm. cbn [app] in IH. now rewrite IH.
Qed.

(** X6.  For a text of at least 50 characters after stripping, and as long
    as no call raises, [summarize_text] calls the summarizer once per
    chunk, in order, and returns the summaries joined by single spaces;
    the chunks are the stripped text cut at every 2048th character, so
    every character is summarized exactly once. *)
Theorem summarize_text_chunks (f : str -> str) text :
  50 <= length (strip text) ->
  (forall c, In c (chunks_of (strip text)) -> summarizer c = Ok (f c)) ->
  summarize_text summarizer text
  = (chunks_of (strip text),
     Ok (join [SP] (map f (chunks_of (strip text)))))
  /\ concat (chunks_of (strip text)) = strip text
  /\ Forall (fun c => 0 < length c <= max_chunk_size)
            (chunks_of (strip text)).
Proof.
  intros Hlen Hok. split; [|split; apply chunks_of_cover].
  rewrite summarize_text_long by assumption.
  rewrite (summaries_of_all_ok f) by assumption.
  cbn [bind ret Monad_Job]. now rewrite app_nil_r.
Qed.

(** X7.  When a call to the summarizer raises, [summarize_text] raises the
    same exception and stops: the chunks after the failing one are never
    sent, and the summaries already obtained are lost. *)
Theorem summarize_text_first_failure text before c after e :
  50 <= length (strip text) ->
  chunks_of (strip text) = before ++ c :: after ->
  Forall (fun b => exists sm, summarizer b = Ok sm) before ->
  summarizer c = Raise e ->
  summarize_text summarizer text = (before ++ [c], Raise e).
Proof.
  intros Hlen Hchunks Hb Hc. rewrite summarize_text_long by assumption.
  rewrite Hchunks, (summaries_of_failure _ _ _ _ Hb Hc). reflexivity.
Qed.

Lemma summaries_of_calls c chunks :
  calls (summaries_of summarizer (c :: chunks)) <> [].
Proof.
  cbn [summaries_of bind ret Monad_Job]. unfold call_summarizer, calls.
  destruct (summarizer c); [|easy].
  now destruct (summaries_of summarizer chunks) as [tr [sms|e]].
Qed.

Lemma summarize_text_short text :
  length (strip text) < 50 ->
  summarize_text summarizer text = ([], Ok too_short).
Proof.
  intros H. unfold summarize_text. cbv zeta.
  apply Nat.ltb_lt in H. now rewrite H.
Qed.

(** X8.  [summarize_text] calls the summarizer exactly when the stripped
    text has at least 50 characters, also when the first call raises;
    below that it makes no call. *)
Theorem summarize_text_threshold text :
  calls (summarize_text summarizer text) = [] <-> length (strip text) < 50.
Proof.
  split.
  - intros Hcalls. destruct (Nat.lt_ge_cases (length (strip text)) 50)
      as [H|H]; [exact H|exfalso].
    rewrite summarize_text_long in Hcalls by assumption.
    destruct (chunks_of_cover (strip text)) as [_ [_ Hn]].
    destruct (chunks_of (strip text)) as [|c chunks] eqn:E.
    + cbn [length] in Hn. symmetry in Hn. apply Nat.div_small_iff in Hn;
        [|unfold max_chunk_size; lia].
      unfold max_chunk_size in Hn. lia.
    + pose proof (summaries_of_calls c chunks) as Hne.
      revert Hcalls Hne. unfold calls. cbn [bind ret Monad_Job].
      destruct (summaries_of summarizer (c :: chunks)) as [tr [sms|e']];
        simpl; [rewrite app_nil_r|]; congruence.
  - intros H. now rewrite summarize_text_short.
Qed.

End SummaryDriver.

Lemma summarize_text_chunks_witness :
  let text := snd (fst long_section) in
  50 <= length (strip text)
  /\ summarize_text echo text = ([text], Ok text).
Proof.
  intros text. split; [vm_compute; lia|].
  exact (proj1 (summarize_text_chunks echo (fun c => c) text
                  ltac:(vm_compute; lia) (fun c _ => eq_refl))).
Defined.

Lemma summarize_text_first_failure_witness :
  let text := snd (fst long_section) in
  summarize_text broken text = ([text], Raise (Exception (txt "boom"))).
Proof.
  intros text.
  exact (summarize_text_first_failure broken text [] text []
           (Exception (txt "boom")) ltac:(vm_compute; lia) eq_refl
           (Forall_nil _) eq_refl).
Defined.

(** ** CorrelationExtractor and the job *)

Lemma re_split_nonempty sep t : re_split sep t <> [].
Proof. destruct t as [|c r]; [easy|]. rewrite re_split_cons. now destruct (sep c). Qed.

Lemma re_split_first sep t : exists b, t = hd [] (re_split sep t) ++ b.
Proof.
  induction t as [|c r [b IH]]; [now exists []|].
  rewrite re_split_cons. destruct (sep c); simpl.
  - now exists (c :: r).
  - exists b. now f_equal.
Qed.

(** Every piece that [re.split] returns is a part of the text. *)
Lemma re_split_part sep t piece :
  In piece (re_split sep t) -> exists a b, t = a ++ piece ++ b.
Proof.
  induction t as [|c r IH].
  - simpl. intros [<-|[]]. now exists [], [].
  - rewrite re_split_cons. pose proof (re_split_nonempty sep r) as Hne.
    assert (Hin : In piece (re_split sep r) ->
                  exists a b, c :: r = a ++ piece ++ b).
    { intros H. destruct (IH H) as [a [b ->]]. now exists (c :: a), b. }
    destruct (sep c).
    + intros [<-|H]; [now exists [], (c :: r) | auto].
    + destruct (re_split sep r) as [|p ps] eqn:E; [easy|]. simpl.
      intros [<-|H]; [|apply Hin; now right].
      destruct (re_split_first sep r) as [b Hb]. rewrite E in Hb. simpl in Hb.
      exists [], b. simpl. now f_equal.
Qed.

Lemma contains_part needle a h b :
  contains needle h = true -> contains needle (a ++ h ++ b) = true.
Proof.
  rewrite !contains_skipn. intros [k Hk]. exists (length a + k).
  rewrite Nat.add_comm, <- skipn_skipn, skipn_key.
  destruct (Nat.le_gt_cases k (length h)) as [Hle|Hgt].
  - rewrite skipn_app. replace (k - length h) with 0 by lia.
    now apply starts_with_app.
  - rewrite skipn_all2 in Hk by lia.
    destruct needle; [reflexivity | discriminate].
Qed.

Lemma mentions_both_part a piece b :
  mentions_both piece = true ->
  contains (txt "climate change") (lower (a ++ piece ++ b)) = true
  /\ contains (txt "insurance") (lower (a ++ piece ++ b)) = true.
Proof.
  unfold mentions_both. intros H. apply andb_prop in H as [H1 H2].
  rewrite !lower_app. split; now apply contains_part.
Qed.

Section Correlation2.

Variable summarizer : str -> result str.

Lemma correlation_none text :
  (forall piece, In piece (re_split is_terminator text) ->
                 mentions_both piece = false) ->
  summarize_climate_insurance_correlation summarizer text
  = ([], Ok no_correlation).
Proof.
  intros H. unfold summarize_climate_insurance_correlation,
    correlation_sentences.
  replace (filter mentions_both (re_split is_terminator text)) with (@nil str);
    [reflexivity|].
  symmetry. induction (re_split is_terminator text) as [|p ps IH];
    [reflexivity|].
  simpl. rewrite (H p (or_introl eq_refl)). apply IH.
  intros piece Hin. apply H. now right.
Qed.

(** X9.  A text that lacks one of the two keywords, compared in lower
    case over the whole text, gets the fixed answer of the
    CorrelationExtractor, and the summarizer is not called. *)
Theorem correlation_needs_both_keywords text :
  contains (txt "climate change") (lower text) = false
  \/ contains (txt "insurance") (lower text) = false ->
  summarize_climate_insurance_correlation summarizer text
  = ([], Ok no_correlation).
Proof.
  intros H. apply correlation_none. intros piece Hin.
  destruct (mentions_both piece) eqn:E; [exfalso | reflexivity].
  apply re_split_part in Hin as [a [b ->]].
  apply (mentions_both_part a _ b) in E as [E1 E2].
  destruct H; congruence.
Qed.

Lemma re_split_sentence sep a c b :
  forallb (fun x => negb (sep x)) a = true -> sep c = true ->
  re_split sep (a ++ c :: b) = a :: re_split sep b.
Proof.
  intros Ha Hc. induction a as [|x a IH].
  - simpl. now rewrite Hc.
  - simpl in Ha. apply andb_prop in Ha as [Hx Ha]. apply negb_true_iff in Hx.
    simpl app. rewrite re_split_cons, Hx, (IH Ha). reflexivity.
Qed.

(** X10.  The two keywords count only when one sentence holds both: when
    the first sentence lacks "insurance" and the text after its terminator
    lacks "climate change", the answer is the fixed one and the summarizer
    is not called, even though the text as a whole holds both. *)
Theorem correlation_needs_same_sentence a term b :
  forallb (fun c => negb (is_terminator c)) a = true ->
  is_terminator term = true ->
  contains (txt "insurance") (lower a) = false ->
  contains (txt "climate change") (lower b) = false ->
  summarize_climate_insurance_correlation summarizer (a ++ term :: b)
  = ([], Ok no_correlation).
Proof.
  intros Ha Hterm Hins Hcc. apply correlation_none. intros piece.
  rewrite re_split_sentence by assumption. intros [<-|Hin].
  - unfold mentions_both. now rewrite Hins, andb_false_r.
  - destruct (mentions_both piece) eqn:E; [exfalso | reflexivity].
    apply re_split_part in Hin as [x [y Hb]].
    apply (mentions_both_part x _ y) in E as [E1 _]. congruence.
Qed.

Lemma join_length l : length (join [SP] l) <= pred (weight l).
Proof.
  unfold weight. induction l as [|p [|q l] IH]; simpl in *; try lia.
  rewrite length_app. simpl. lia.
Qed.

Lemma weight_re_split sep t : weight (re_split sep t) = S (length t).
Proof.
  induction t as [|c r IH]; [reflexivity|].
  rewrite re_split_cons. pose proof (re_split_nonempty sep r) as Hne.
  destruct (sep c).
  - unfold weight in *. simpl. now rewrite IH.
  - destruct (re_split sep r) as [|p ps]; [easy|].
    unfold weight in *. simpl in *. lia.
Qed.

Lemma weight_shrink p l :
  weight (map strip (filter p l)) <= weight l.
Proof.
  unfold weight. induction l as [|x l IH]; simpl; [lia|].
  destruct (p x); simpl; [|lia]. pose proof (strip_length x). lia.
Qed.

Lemma correlation_sentences_length text :
  length (join [SP] (correlation_sentences text)) <= length text.
Proof.
  unfold correlation_sentences.
  pose proof (join_length
                (map strip (filter mentions_both
                              (re_split is_terminator text)))) as H1.
  pose proof (weight_shrink mentions_both (re_split is_terminator text)) as H2.
  rewrite weight_re_split in H2. lia.
Qed.

(** X11.  The job of a section whose text has fewer than 50 characters
    never calls the summarizer and never raises: its summary is the fixed
    answer for short texts, and so is its correlation summary unless no
    sentence holds both keywords. *)
Theorem short_section_job title text md :
  length text < 50 ->
  process_text_item_in_threads summarizer (title, text, md)
  = ([], Ok (title, text, too_short,
             match correlation_sentences text with
             | [] => no_correlation
             | _ :: _ => too_short
             end, md)).
Proof.
  intros Hlen. unfold process_text_item_in_threads.
  rewrite summarize_text_short by (pose proof (strip_length text); lia).
  cbn [bind ret Monad_Job].
  unfold summarize_climate_insurance_correlation.
  pose proof (correlation_sentences_length text) as Hj.
  destruct (correlation_sentences text) as [|s0 ss] eqn:E; [reflexivity|].
  rewrite summarize_text_short; [reflexivity|].
  pose proof (strip_length (join [SP] (s0 :: ss))). lia.
Qed.

End Correlation2.

Lemma correlation_needs_both_keywords_witness :
  summarize_climate_insurance_correlation broken
    (txt "Climate change raises costs for coastal homes. Premiums follow!")
  = ([], Ok no_correlation).
Proof.
  exact (correlation_needs_both_keywords broken
           (txt "Climate change raises costs for coastal homes. Premiums follow!")
           (or_intror eq_refl)).
Defined.

Lemma correlation_needs_same_sentence_witness :
  summarize_climate_insurance_correlation broken
    (txt "Climate change raises the sea" ++ "."
     :: txt " Insurance costs follow for coastal homes every year.")
  = ([], Ok no_correlation).
Proof.
  exact (correlation_needs_same_sentence broken
           (txt "Climate change raises the sea") "."
           (txt " Insurance costs follow for coastal homes every year.")
           eq_refl eq_refl eq_refl eq_refl).
Defined.

Lemma short_section_job_witness :
  process_text_item_in_threads broken
    (txt "T", txt "Insurance and climate change.", mkMetadata None None None)
  = ([], Ok (txt "T", txt "Insurance and climate change.", too_short,
             too_short, mkMetadata None None None)).
Proof.
  exact (short_section_job broken (txt "T")
           (txt "Insurance and climate change.") (mkMetadata None None None)
           ltac:(vm_compute; lia)).
Defined.

(** ** The drain loop: which rows, in which order *)

Lemma new_rows_writable to_csv_error fs w :
  (forall rows row, to_csv_error rows row = None) ->
  new_rows to_csv_error fs w = map row_data (successes fs).
Proof.
  intros Hok. revert w. induction fs as [|f fs IH]; intros w; [reflexivity|].
  cbn [new_rows]. rewrite IH. unfold successes, rows_of_one.
  destruct f as [res|e]; [|reflexivity]. now rewrite Hok.
Qed.

(** X12.  With a sink that accepts every write, the rows appended during
    a batch are those of the jobs that returned, in the order in which
    [as_completed] yielded their futures: the order of completion, not of
    submission. *)
Theorem rows_in_completion_order summarizer to_csv_error texts sch w :
  (forall rows row, to_csv_error rows row = None) ->
  rows_appended w
    (fst (parallel_process_texts_in_threads summarizer to_csv_error
            texts sch w))
  = map row_data
        (successes (yielded (map (submit summarizer) texts) (order sch))).
Proof.
  intros Hok. rewrite batch_rows. now apply new_rows_writable.
Qed.

Lemma rows_in_completion_order_witness :
  map col_title
      (rows_appended empty_world
         (fst (parallel_process_texts_in_threads echo writable
                 [short_section; long_section] (mkSchedule [1; 0] false)
                 empty_world)))
  = [txt "Flood Policy"; txt "Climate Risk"].
Proof.
  rewrite (rows_in_completion_order echo writable
             [short_section; long_section] (mkSchedule [1; 0] false)
             empty_world (fun _ _ => eq_refl)).
  reflexivity.
Defined.

Lemma yielded_shift f fs l : yielded (f :: fs) (map S l) = yielded fs l.
Proof.
  unfold yielded. induction l as [|i l IH]; [reflexivity|].
  simpl. now rewrite IH.
Qed.

Lemma yielded_all fs : yielded fs (seq 0 (length fs)) = fs.
Proof.
  induction fs as [|f fs IH]; [reflexivity|].
  cbn [length]. rewrite <- cons_seq, <- seq_shift.
  change (yielded (f :: fs) (0 :: map S (seq 0 (length fs))))
    with (f :: yielded (f :: fs) (map S (seq 0 (length fs)))).
  now rewrite yielded_shift, IH.
Qed.

(** A schedule that does not hit the deadline yields every future once. *)
Lemma valid_schedule_permutation (fs : list Future) sch :
  valid_schedule (length fs) sch = true -> deadline_hit sch = false ->
  Permutation.Permutation (yielded fs (order sch)) fs.
Proof.
  intros Hvalid Hd. rewrite <- (yielded_all fs) at 2.
  unfold yielded. apply Permutation.Permutation_flat_map.
  pose proof Hvalid as H. unfold valid_schedule in H. rewrite Hd in H.
  apply andb_prop in H as [H Hlen]. apply andb_prop in H as [Hdis Hlt].
  apply Nat.eqb_eq in Hlen. apply Permutation.NoDup_Permutation_bis.
  - now apply distinct_NoDup.
  - rewrite length_seq. lia.
  - intros i Hi. apply in_seq. rewrite forallb_forall in Hlt.
    apply Hlt, Nat.ltb_lt in Hi. lia.
Qed.

(** X13.  When the deadline is not hit and the sink accepts every write,
    a batch loses and duplicates nothing: the rows appended are, up to
    their order, the rows of all the jobs that returned. *)
Theorem complete_batch_rows summarizer to_csv_error texts sch w :
  valid_schedule (length texts) sch = true ->
  deadline_hit sch = false ->
  (forall rows row, to_csv_error rows row = None) ->
  Permutation.Permutation
    (rows_appended w
       (fst (parallel_process_texts_in_threads summarizer to_csv_error
               texts sch w)))
    (map row_data (successes (map (submit summarizer) texts))).
Proof.
  intros Hvalid Hd Hok. rewrite batch_rows, new_rows_writable by assumption.
  apply Permutation.Permutation_map. unfold successes.
  apply Permutation.Permutation_flat_map.
  apply valid_schedule_permutation; [|assumption].
  now rewrite length_map.
Qed.

Lemma complete_batch_rows_witness :
  Permutation.Permutation
    (rows_appended empty_world
       (fst (parallel_process_texts_in_threads echo writable
               [short_section; long_section] (mkSchedule [1; 0] false)
               empty_world)))
    (map row_data
         (successes (map (submit echo) [short_section; long_section]))).
Proof.
  exact (complete_batch_rows echo writable [short_section; long_section]
           (mkSchedule [1; 0] false) empty_world eq_refl eq_refl
           (fun _ _ => eq_refl)).
Defined.

(** ** SectionSegmenter: what the sections hold *)

(** X14.  Every section that [extract_text_beneath_duplicates] returns
    carries a text in normal form: no URL, no whitespace other than single
    spaces between words, nothing to strip, so that cleaning it again
    changes nothing. *)
Theorem section_texts_normal extract_metadata content titles sec :
  In sec (extract_text_beneath_duplicates extract_metadata content titles) ->
  let text := snd (fst sec) in
  url_free text = true /\ single_spaced text = true
  /\ stripped text = true /\ clean_text text = text.
Proof.
  intros Hin text. subst text. destruct sec as [[title text] md].
  apply section_text in Hin as [m [_ [-> _]]]. cbn [fst snd].
  pose proof (clean_text_url_free (extracted_text title content m)) as Hu.
  pose proof (clean_text_single_spaced (extracted_text title content m)) as Hs.
  split; [exact Hu|]. split; [exact Hs|]. split.
  - rewrite clean_text_unfold. apply strip_stripped.
  - rewrite (clean_text_unfold (clean_text _)).
    rewrite url_free_fixed, single_spaced_fixed by assumption.
    rewrite clean_text_unfold. apply strip_idem.
Qed.

Lemma section_texts_normal_witness :
  let sec := (txt "T", txt "T body", mkMetadata None None None) in
  In sec (extract_text_beneath_duplicates no_metadata doc_adjacent [txt "T"])
  /\ clean_text (snd (fst sec)) = snd (fst sec).
Proof.
  intros sec.
  assert (Hin : In sec (extract_text_beneath_duplicates no_metadata
                          doc_adjacent [txt "T"])) by (left; reflexivity).
  split; [exact Hin|].
  exact (proj2 (proj2 (proj2 (section_texts_normal no_metadata doc_adjacent
                                [txt "T"] sec Hin)))).
Defined.

Lemma scan_ext {G} (p q : pattern G) :
  (forall prev t, p prev t = q prev t) ->
  forall t prev k pos, scan p prev k pos t = scan q prev k pos t.
Proof.
  intros H. induction t as [|c r IH]; intros prev k pos; [reflexivity|].
  simpl. rewrite H. destruct k; [|apply IH].
  destruct (q prev (c :: r)) as [[[|n] g]|]; now rewrite IH.
Qed.

Lemma title_pattern_case title title' :
  lower title = lower title' ->
  forall prev t, title_pattern title prev t = title_pattern title' prev t.
Proof.
  intros H prev t. unfold title_pattern. cbv zeta.
  assert (Hlen : length (title ++ [NL]) = length (title' ++ [NL])).
  { rewrite !length_app. f_equal.
    now rewrite <- (lower_length title), H, lower_length. }
  assert (Hst : forall x, istarts_with (title ++ [NL]) x
                          = istarts_with (title' ++ [NL]) x).
  { intros x. now rewrite !istarts_with_lower, !lower_app, H. }
  rewrite Hlen. destruct prev, t as [|c r]; rewrite ?Hst; reflexivity.
Qed.

(** X15.  Titles that differ only in case find the same occurrences and
    give the same texts and metadata: the sections of one are those of the
    other under another title. *)
Theorem sections_up_to_title_case extract_metadata content title title' :
  lower title = lower title' ->
  finditer (title_pattern title) content
  = finditer (title_pattern title') content
  /\ map section_body (sections_of_title extract_metadata content title)
     = map section_body (sections_of_title extract_metadata content title').
Proof.
  intros H. pose proof (title_pattern_case _ _ H) as Hp.
  assert (Hfind : forall t, finditer (title_pattern title) t
                            = finditer (title_pattern title') t).
  { intros t. now apply scan_ext. }
  split; [apply Hfind|].
  unfold sections_of_title. rewrite !map_map, Hfind.
  apply map_ext. intros m. unfold section_body. cbn [fst snd].
  assert (Hx : extracted_text title content m
               = extracted_text title' content m).
  { unfold extracted_text, body_span, next_title_pos. now rewrite Hfind. }
  now rewrite Hx.
Qed.

Lemma sections_up_to_title_case_witness :
  map section_body
      (sections_of_title no_metadata doc_example (txt "FLOOD policy"))
  = [(txt "Body B unrelated.", mkMetadata None None None)].
Proof.
  rewrite (proj2 (sections_up_to_title_case no_metadata doc_example
                    (txt "FLOOD policy") (txt "Flood Policy") eq_refl)).
  reflexivity.
Defined.

Lemma option_eq_dec_zero (o : option nat) : o = Some 0 \/ o <> Some 0.
Proof. destruct o as [[|n]|]; [now left | now right ..]. Qed.

Lemma slice_to_end t i : slice t i (length t) = skipn i t.
Proof.
  unfold slice. apply firstn_all2. rewrite length_skipn. lia.
Qed.

(** X16.  The last occurrence of a title takes everything up to the end of
    the document, whatever follows it, sections of other titles
    included. *)
Theorem last_occurrence_takes_rest title content pre m :
  finditer (title_pattern title) content = pre ++ [m] ->
  body_span title content m = (m_end m, length content)
  /\ extracted_text title content m = strip (skipn (m_end m) content).
Proof.
  intros H.
  assert (Hspan : body_span title content m = (m_end m, length content)).
  { destruct (option_eq_dec_zero (next_title_pos title content (m_end m)))
      as [Hz|Hnz].
    - now apply body_span_adjacent.
    - now rewrite (body_span_up_to_next _ _ _ _ _ H Hnz). }
  split; [exact Hspan|].
  unfold extracted_text. rewrite Hspan. now rewrite slice_to_end.
Qed.

Lemma last_occurrence_takes_rest_witness :
  extracted_text (txt "Climate Risk") doc_example (mkMatch 31 45 tt)
  = txt "Body A mentions climate change and insurance costs." ++ NL
    :: txt "Flood Policy" ++ NL :: txt "Body B unrelated.".
Proof.
  rewrite (proj2 (last_occurrence_takes_rest (txt "Climate Risk")
                    doc_example [] (mkMatch 31 45 tt) eq_refl)).
  reflexivity.
Defined.

(** ** [main] *)

Section MainProperties.

Variable summarizer : str -> result str.
Variable to_csv_error : list Row -> Row -> option exn.
Variable create_error : option exn.
Variable read_file : str -> result str.
Variable schedule_of : str -> Schedule.
Variable input_folder : str.

Lemma process_file_other filename w :
  txt_file filename = false -> (process_file summarizer to_csv_error read_file schedule_of
     input_folder) filename w = (w, Ok tt).
Proof.
  unfold process_file, txt_file. now intros ->.
Qed.

Lemma process_file_readable filename content w :
  txt_file filename = true ->
  read_file (os_path_join input_folder filename) = Ok content ->
  (process_file summarizer to_csv_error read_file schedule_of
     input_folder) filename w
  = parallel_process_texts_in_threads summarizer to_csv_error
      (sections_of_file content)
      (schedule_of (os_path_join input_folder filename))
      (add_logs (file_preamble (os_path_join input_folder filename) content)
                w).
Proof.
  unfold process_file, txt_file. intros -> Hread. cbv zeta.
  unfold extract_titles_from_toc_io, extract_text_beneath_duplicates_io,
    read, logging. cbn [bind ret Monad_M]. rewrite Hread.
  cbn [bind ret Monad_M csv log]. unfold add_logs, file_preamble,
    sections_of_file. cbn [csv log]. now rewrite <- !app_assoc.
Qed.

Lemma process_file_unreadable filename e w :
  txt_file filename = true ->
  read_file (os_path_join input_folder filename) = Raise e ->
  (process_file summarizer to_csv_error read_file schedule_of
     input_folder) filename w
  = (add_logs [(INFO, txt "Processing file: "
                      ++ os_path_join input_folder filename);
               (INFO, txt "Extracting titles from Table of Contents.")] w,
     Raise e).
Proof.
  unfold process_file, txt_file. intros -> Hread. cbv zeta.
  unfold extract_titles_from_toc_io, read, logging.
  cbn [bind ret Monad_M]. rewrite Hread. unfold add_logs. cbn [csv log].
  now rewrite <- app_assoc.
Qed.

Lemma for_each_app {A} (body : A -> M unit) l1 l2 w :
  for_each body (l1 ++ l2) w
  = match for_each body l1 w with
    | (w', Ok _) => for_each body l2 w'
    | (w', Raise e) => (w', Raise e)
    end.
Proof.
  revert w. induction l1 as [|x l1 IH]; intros w; [reflexivity|].
  cbn [app for_each bind Monad_M]. destruct (body x w) as [w' [[]|e]];
    [apply IH | reflexivity].
Qed.

Lemma for_each_filter {A} (body : A -> M unit) (keep : A -> bool) l :
  (forall x w, keep x = false -> body x w = (w, Ok tt)) ->
  forall w, for_each body l w = for_each body (filter keep l) w.
Proof.
  intros Hskip. induction l as [|x l IH]; intros w; [reflexivity|].
  cbn [for_each filter bind Monad_M]. destruct (keep x) eqn:E.
  - cbn [for_each bind Monad_M]. destruct (body x w) as [w' [[]|e]];
      [apply IH | reflexivity].
  - rewrite (Hskip x w E). apply IH.
Qed.

Lemma main_unfold pipeline listdir output_file w :
  main pipeline to_csv_error create_error read_file schedule_of listdir
       input_folder output_file w
  = match initialize_csv create_error output_file w with
    | (w1, Ok _) =>
        match pipeline with
        | Ok built =>
            match listdir input_folder with
            | Ok listing =>
                match for_each (process_file built to_csv_error read_file
                                  schedule_of input_folder) listing w1 with
                | (w2, Ok _) => (add_logs [processed_notice] w2, Ok tt)
                | (w2, Raise e) => (w2, Raise e)
                end
            | Raise e => (w1, Raise e)
            end
        | Raise e => (w1, Raise e)
        end
    | (w1, Raise e) => (w1, Raise e)
    end.
Proof.
  unfold main, call. cbn [bind Monad_M].
  destruct (initialize_csv create_error output_file w) as [w1 [[]|e]];
    [|reflexivity].
  destruct pipeline as [built|e]; [|reflexivity].
  destruct (listdir input_folder) as [listing|e]; [|reflexivity].
  now destruct (for_each (process_file built to_csv_error read_file
                            schedule_of input_folder) listing w1)
    as [w2 [[]|e]].
Qed.

(** X17.  [main] passes over every name that does not end in ".txt": the
    run is the one for a folder that holds the ".txt" names only,
    whatever else happens in it. *)
Theorem main_ignores_other_files pipeline listdir output_file w :
  main pipeline to_csv_error create_error read_file schedule_of listdir
       input_folder output_file w
  = main pipeline to_csv_error create_error read_file schedule_of
         (txt_files_only listdir) input_folder output_file w.
Proof.
  rewrite !main_unfold. unfold txt_files_only.
  destruct (initialize_csv create_error output_file w) as [w1 [[]|e]];
    [|reflexivity].
  destruct pipeline as [built|e]; [|reflexivity].
  destruct (listdir input_folder) as [listing|e]; [|reflexivity].
  rewrite (for_each_filter (process_file built to_csv_error read_file
                              schedule_of input_folder) txt_file);
    [reflexivity|].
  intros x w' Hx. unfold process_file. unfold txt_file in Hx. now rewrite Hx.
Qed.

Lemma batch_returns texts sch w :
  snd (parallel_process_texts_in_threads summarizer to_csv_error texts sch w)
  = Ok tt.
Proof. now rewrite run_eq. Qed.

Lemma for_each_readable listing : forall w,
  (forall name, In name listing -> txt_file name = true ->
                readable read_file (os_path_join input_folder name) = true) ->
  snd (for_each (process_file summarizer to_csv_error read_file schedule_of
     input_folder) listing w) = Ok tt.
Proof.
  induction listing as [|name listing IH]; intros w Hr; [reflexivity|].
  cbn [for_each bind Monad_M].
  assert (Hone : snd ((process_file summarizer to_csv_error read_file schedule_of
     input_folder) name w) = Ok tt).
  { destruct (txt_file name) eqn:E.
    - specialize (Hr name (or_introl eq_refl) E). unfold readable in Hr.
      destruct (read_file (os_path_join input_folder name)) as [content|e]
        eqn:Hread; [|discriminate].
      rewrite (process_file_readable _ _ _ E Hread). apply batch_returns.
    - now rewrite process_file_other. }
  destruct ((process_file summarizer to_csv_error read_file schedule_of
     input_folder) name w) as [w' [[]|e]]; [|discriminate].
  apply IH. intros n Hn. apply Hr. now right.
Qed.

(** X18.  When the header can be written, [pipeline] returns a summarizer,
    [os.listdir] returns the names and every ".txt" file among them can
    be read, [main] returns normally and the last record it logs is the
    notice that all files were processed, whatever the summarizer, the
    sink and the deadlines did to the batches. *)
Theorem main_completes pipeline listdir listing output_file w :
  create_error = None ->
  pipeline = Ok summarizer ->
  listdir input_folder = Ok listing ->
  (forall name, In name listing -> txt_file name = true ->
                readable read_file (os_path_join input_folder name) = true) ->
  let done := main pipeline to_csv_error create_error read_file schedule_of
                   listdir input_folder output_file w in
  snd done = Ok tt
  /\ last (log (fst done)) (WARNING, []) = processed_notice.
Proof.
  intros Hc Hp Hl Hr done. subst done. rewrite main_unfold, Hp, Hl.
  unfold initialize_csv, to_csv_create, logging. rewrite Hc.
  cbn [bind Monad_M].
  match goal with
  | |- context [for_each _ listing ?w1] =>
      pose proof (for_each_readable listing w1 Hr) as H;
      destruct (for_each _ listing w1) as [w2 [[]|e]]
  end; [|discriminate].
  split; [reflexivity|]. unfold add_logs. cbn [fst log].
  apply last_last.
Qed.



(** X20.  A ".txt" file that cannot be read ends the run.  Once
    [pipeline] has returned a summarizer and [os.listdir] the names,
    [main] raises the exception of the read, right after logging that it
    extracts the titles; the names after it in the listing are not looked
    at, the notice that all files were processed is not logged, and the
    rows written for the files before it stay. *)
Theorem main_stops_at_unreadable_file pipeline listdir pre name post e
    output_file w :
  create_error = None ->
  pipeline = Ok summarizer ->
  listdir input_folder = Ok (pre ++ name :: post) ->
  (forall n, In n pre -> txt_file n = true ->
             readable read_file (os_path_join input_folder n) = true) ->
  txt_file name = true ->
  read_file (os_path_join input_folder name) = Raise e ->
  exists w1,
    (initialize_csv create_error output_file ;; for_each (process_file summarizer to_csv_error read_file schedule_of
     input_folder) pre) w
    = (w1, Ok tt)
    /\ main pipeline to_csv_error create_error read_file schedule_of listdir
            input_folder output_file w
       = (add_logs [(INFO, txt "Processing file: "
                           ++ os_path_join input_folder name);
                    (INFO, txt "Extracting titles from Table of Contents.")]
                   w1,
          Raise e).
Proof.
  intros Hc Hp Hl Hr Htxt Hread. rewrite main_unfold, Hp, Hl.
  cbn [bind Monad_M].
  unfold initialize_csv, to_csv_create, logging. rewrite Hc.
  cbn [bind Monad_M]. rewrite for_each_app.
  match goal with
  | |- context [for_each _ pre ?w0] =>
      pose proof (for_each_readable pre w0 Hr) as H;
      destruct (for_each _ pre w0) as [w1 [[]|e']]
  end; [|discriminate].
  exists w1. split; [reflexivity|].
  cbn [for_each bind Monad_M].
  now rewrite (process_file_unreadable _ _ w1 Htxt Hread).
Qed.

(** X21.  A failure while setting up ends the run after the header is
    written: when [pipeline] raises, or [os.listdir] raises after it,
    [main] raises that exception, the output file holds the header and no
    row, the only record logged is that the file was initialized, and no
    file of the folder is opened. *)
Theorem main_setup_failure pipeline listdir output_file w e :
  create_error = None ->
  pipeline = Raise e
  \/ (exists built, pipeline = Ok built) /\ listdir input_folder = Raise e ->
  forall read_file',
    main pipeline to_csv_error create_error read_file' schedule_of listdir
         input_folder output_file w
    = (initialized output_file w, Raise e).
Proof.
  intros Hc Hfail read_file'.
  unfold main, call, initialize_csv, to_csv_create, logging, initialized.
  rewrite Hc. cbn [bind Monad_M csv log].
  destruct Hfail as [->|[[built ->] ->]]; reflexivity.
Qed.

End MainProperties.

Lemma main_completes_witness :
  let done := main (Ok broken) (rejects (txt "Flood Policy")) None
                   example_disk second_first
                   (folder_of [txt "notes.md"; txt "a.txt"])
                   (txt "proquest_docs") (txt "output_data.csv")
                   empty_world in
  snd done = Ok tt
  /\ last (log (fst done)) (WARNING, []) = processed_notice.
Proof.
  apply (main_completes broken (rejects (txt "Flood Policy")) None
           example_disk second_first (txt "proquest_docs") (Ok broken)
           (folder_of [txt "notes.md"; txt "a.txt"])
           [txt "notes.md"; txt "a.txt"] (txt "output_data.csv") empty_world
           eq_refl eq_refl eq_refl).
  intros name [<-|[<-|[]]]; [discriminate | reflexivity].
Defined.


Lemma main_stops_at_unreadable_file_witness :
  let done := main (Ok echo) writable None example_disk second_first
                   (folder_of [txt "a.txt"; txt "b.txt"; txt "c.txt"])
                   (txt "proquest_docs") (txt "output_data.csv")
                   empty_world in
  snd done = Raise (Exception (txt "'utf-8' codec can't decode byte"))
  /\ map col_title (csv (fst done))
     = [txt "Flood Policy"; txt "Climate Risk"].
Proof.
  destruct (main_stops_at_unreadable_file echo writable None example_disk
              second_first (txt "proquest_docs") (Ok echo)
              (folder_of [txt "a.txt"; txt "b.txt"; txt "c.txt"])
              [txt "a.txt"] (txt "b.txt") [txt "c.txt"]
              (Exception (txt "'utf-8' codec can't decode byte"))
              (txt "output_data.csv") empty_world eq_refl eq_refl eq_refl)
    as [w1 [Hw1 Hmain]].
  - intros name [<-|[]] _. reflexivity.
  - reflexivity.
  - reflexivity.
  - cbv zeta. rewrite Hmain. cbn [fst snd add_logs csv].
    split; [reflexivity|].
    vm_compute in Hw1. injection Hw1 as <-. reflexivity.
Defined.

Lemma main_setup_failure_witness :
  main (Raise (Exception (txt "model not found"))) writable None
       example_disk second_first (folder_of [txt "a.txt"])
       (txt "proquest_docs") (txt "output_data.csv")
       (mkWorld [mkRow [] [] [] [] [] [] []] [])
  = (mkWorld [] [(INFO, txt "CSV initialized at output_data.csv")],
     Raise (Exception (txt "model not found")))
  /\ main (Ok echo) writable None example_disk second_first
          (folder_of [txt "a.txt"]) (txt "reports") (txt "output_data.csv")
          empty_world
     = (mkWorld [] [(INFO, txt "CSV initialized at output_data.csv")],
        Raise (Exception (txt "No such file or directory"))).
Proof.
  split.
  - exact (main_setup_failure writable None second_first
             (txt "proquest_docs") (Raise (Exception (txt "model not found")))
             (folder_of [txt "a.txt"]) (txt "output_data.csv")
             (mkWorld [mkRow [] [] [] [] [] [] []] [])
             (Exception (txt "model not found")) eq_refl
             (or_introl eq_refl) example_disk).
  - exact (main_setup_failure writable None second_first (txt "reports")
             (Ok echo) (folder_of [txt "a.txt"]) (txt "output_data.csv")
             empty_world (Exception (txt "No such file or directory"))
             eq_refl (or_intror (conj (ex_intro _ echo eq_refl) eq_refl))
             example_disk).
Defined.
